(** * PathCaptcha_FHE: the maze/solution registries, the validity circuit and
      the decryption callback of the contract, as a state-and-revert monad.

    The contract is Solidity.  Storage is a record of finite maps read with
    Solidity's default-value semantics; every external function is a
    computation in a monad that threads the storage and may revert.  A
    transaction that reverts leaves the storage as it was before the call. *)

From Stdlib Require Import ZArith List Bool Lia Strings.Byte.
From stdpp Require Import base option list gmap.

Local Open Scope Z_scope.

(** ** Ciphertexts *)

(** Modelled from the spec: the FHE library ([@fhevm/solidity/lib/FHE.sol]) is
    imported by the contract but is not part of the source.  Following the
    glossary ("a computation performed directly on ciphertexts whose result,
    once decrypted, equals the result of the same computation on the original
    plaintexts"), a ciphertext is represented by the plaintext it decrypts to:
    an [euint32] by an integer taken modulo [2^32], an [ebool] by a boolean,
    and each primitive by the plaintext operation it is homomorphic to.  An
    uninitialised handle (the default value of a storage slot) decrypts to 0. *)
Abbreviation euint32 := Z (only parsing).
Abbreviation ebool := bool (only parsing).

Module FHE.
Definition asEuint32 (v : Z) : euint32 := v mod 2 ^ 32.
Definition asEbool (b : bool) : ebool := b.
Definition eq (a b : euint32) : ebool := Z.eqb a b.
Definition sub (a b : euint32) : euint32 := (a - b) mod 2 ^ 32.
Definition add (a b : euint32) : euint32 := (a + b) mod 2 ^ 32.
Definition and (a b : ebool) : ebool := andb a b.
Definition or (a b : ebool) : ebool := orb a b.
End FHE.

(** ** Storage layout *)

Record EncryptedMaze := mkMaze {
  mazeId : Z;
  encryptedGrid : list (list euint32);
  encryptedStartX : euint32;
  encryptedStartY : euint32;
  encryptedEndX : euint32;
  encryptedEndY : euint32;
  timestamp : Z
}.

Record EncryptedSolution := mkSolution {
  solutionId : Z;
  encryptedPathX : list euint32;
  encryptedPathY : list euint32;
  solMazeId : Z
}.

Record DecryptedVerification := mkVerification {
  isValid : bool;
  isRevealed : bool
}.

Inductive Event :=
| MazeGenerated (mazeId timestamp : Z)
| SolutionSubmitted (solutionId mazeId : Z)
| VerificationComplete (solutionId : Z).

(** [decryptionRequests] is not contract storage: it records, in order, the
    calls made to [FHE.requestDecryption] (request id and payload), which a
    revert undoes like every other effect of the transaction. *)
Record State := mkState {
  mazeCount : Z;
  solutionCount : Z;
  encryptedMazes : gmap Z EncryptedMaze;
  encryptedSolutions : gmap Z EncryptedSolution;
  solutionVerifications : gmap Z DecryptedVerification;
  requestToSolutionId : gmap Z Z;
  events : list Event;
  decryptionRequests : list (Z * ebool)
}.

Definition init : State :=
  mkState 0 0 ∅ ∅ ∅ ∅ [] [].

(** Reading a Solidity mapping at a key that was never written gives the
    zero value of the value type. *)
Definition emptyMaze : EncryptedMaze := mkMaze 0 [] 0 0 0 0 0.
Definition emptySolution : EncryptedSolution := mkSolution 0 [] [] 0.
Definition emptyVerification : DecryptedVerification := mkVerification false false.

Definition mazeAt (s : State) (id : Z) : EncryptedMaze :=
  default emptyMaze (encryptedMazes s !! id).
Definition solutionAt (s : State) (id : Z) : EncryptedSolution :=
  default emptySolution (encryptedSolutions s !! id).
Definition verificationAt (s : State) (id : Z) : DecryptedVerification :=
  default emptyVerification (solutionVerifications s !! id).
Definition requestAt (s : State) (id : Z) : Z :=
  default 0 (requestToSolutionId s !! id).

(** Field updates. *)
Definition set_mazeCount (v : Z) (s : State) : State :=
  mkState v (solutionCount s) (encryptedMazes s) (encryptedSolutions s)
          (solutionVerifications s) (requestToSolutionId s) (events s)
          (decryptionRequests s).
Definition set_solutionCount (v : Z) (s : State) : State :=
  mkState (mazeCount s) v (encryptedMazes s) (encryptedSolutions s)
          (solutionVerifications s) (requestToSolutionId s) (events s)
          (decryptionRequests s).
Definition store_maze (id : Z) (m : EncryptedMaze) (s : State) : State :=
  mkState (mazeCount s) (solutionCount s) (<[id := m]> (encryptedMazes s))
          (encryptedSolutions s) (solutionVerifications s)
          (requestToSolutionId s) (events s) (decryptionRequests s).
Definition store_solution (id : Z) (x : EncryptedSolution) (s : State) : State :=
  mkState (mazeCount s) (solutionCount s) (encryptedMazes s)
          (<[id := x]> (encryptedSolutions s)) (solutionVerifications s)
          (requestToSolutionId s) (events s) (decryptionRequests s).
Definition store_verification (id : Z) (v : DecryptedVerification) (s : State) : State :=
  mkState (mazeCount s) (solutionCount s) (encryptedMazes s)
          (encryptedSolutions s) (<[id := v]> (solutionVerifications s))
          (requestToSolutionId s) (events s) (decryptionRequests s).
Definition store_request (rid sid : Z) (s : State) : State :=
  mkState (mazeCount s) (solutionCount s) (encryptedMazes s)
          (encryptedSolutions s) (solutionVerifications s)
          (<[rid := sid]> (requestToSolutionId s)) (events s)
          (decryptionRequests s).
Definition log_event (e : Event) (s : State) : State :=
  mkState (mazeCount s) (solutionCount s) (encryptedMazes s)
          (encryptedSolutions s) (solutionVerifications s)
          (requestToSolutionId s) (events s ++ [e]) (decryptionRequests s).
Definition log_request (rid : Z) (payload : ebool) (s : State) : State :=
  mkState (mazeCount s) (solutionCount s) (encryptedMazes s)
          (encryptedSolutions s) (solutionVerifications s)
          (requestToSolutionId s) (events s)
          (decryptionRequests s ++ [(rid, payload)]).

(** ** Reverts *)

(** The two [require] strings of the contract, the revert of
    [FHE.checkSignatures], the compiler's panics (0x11 arithmetic overflow,
    0x32 array index out of bounds) and the revert of [abi.decode]. *)
Inductive Error :=
| InvalidRequest      (* require(solutionId != 0, "Invalid request") *)
| AlreadyVerified     (* require(!verification.isRevealed, "Already verified") *)
| InvalidProof        (* FHE.checkSignatures reverted *)
| Panic (code : Z)
| DecodeError.

Definition PANIC_OVERFLOW : Z := 17.      (* 0x11 *)
Definition PANIC_INDEX : Z := 50.         (* 0x32 *)

(** ** The monad *)

(** [Revert e s] carries the storage as it stood when the revert was raised;
    [transact] below throws it away. *)
Inductive Outcome (A : Type) :=
| Ok (a : A) (s : State)
| Revert (e : Error) (s : State).
Arguments Ok {A} a s.
Arguments Revert {A} e s.

Definition M (A : Type) : Type := State -> Outcome A.

Definition ret {A} (a : A) : M A := fun s => Ok a s.
Definition bind {A B} (m : M A) (k : A -> M B) : M B :=
  fun s => match m s with
           | Ok a s' => k a s'
           | Revert e s' => Revert e s'
           end.
Definition revert {A} (e : Error) : M A := fun s => Revert e s.
Definition gets {A} (f : State -> A) : M A := fun s => Ok (f s) s.
Definition modify (f : State -> State) : M unit := fun s => Ok tt (f s).
Definition require (b : bool) (e : Error) : M unit :=
  if b then ret tt else revert e.

Notation "'do' x <- c ; k" := (bind c (fun x => k))
  (at level 10, x name, c at level 100, k at level 200).
Notation "c ;; k" := (bind c (fun _ => k))
  (at level 100, k at level 200, right associativity).

Definition stateOf {A} (o : Outcome A) : State :=
  match o with Ok _ s => s | Revert _ s => s end.

(** uint256 arithmetic is checked (pragma ^0.8.24). *)
Definition checked_add (a b : Z) : M Z :=
  if a + b <? 2 ^ 256 then ret (a + b) else revert (Panic PANIC_OVERFLOW).
Definition checked_sub (a b : Z) : M Z :=
  if b <=? a then ret (a - b) else revert (Panic PANIC_OVERFLOW).

(** [a[i]] on a dynamic array. *)
Definition index {A} (a : list A) (i : Z) : M A :=
  match a !! Z.to_nat i with
  | Some v => ret v
  | None => revert (Panic PANIC_INDEX)
  end.

(** [for (uint256 i = start; ...; i++)] running [n] times. *)
Fixpoint forLoop {A} (n : nat) (i : Z) (body : Z -> A -> M A) (acc : A) : M A :=
  match n with
  | O => ret acc
  | S n' => do acc' <- body i acc; forLoop n' (i + 1) body acc'
  end.

(** [abi.decode(cleartexts, (bool))]: the first 32-byte word, big-endian, must
    be 0 or 1. *)
Definition decodeBool (cleartexts : list byte) : option bool :=
  if forallb (Byte.eqb x00) (take 31 cleartexts) then
    match cleartexts !! 31%nat with
    | Some x00 => Some false
    | Some x01 => Some true
    | _ => None
    end
  else None.

Definition abi_decode_bool (cleartexts : list byte) : M bool :=
  match decodeBool cleartexts with
  | Some b => ret b
  | None => revert DecodeError
  end.

(** ** The contract *)

Section Contract.

(** [FHE.checkSignatures(requestId, cleartexts, proof)] belongs to the
    oracle's library: it reverts unless the proof authenticates the
    cleartexts for that request.  [true] means it returns normally. *)
Variable checkSignatures : Z -> list byte -> list byte -> bool.

(** [now] is [block.timestamp]. *)
Definition generateEncryptedMaze (now : Z)
    (encryptedGrid : list (list euint32))
    (encryptedStartX encryptedStartY encryptedEndX encryptedEndY : euint32)
    : M unit :=
  do count <- gets mazeCount;
  do newId <- checked_add count 1;
  modify (set_mazeCount newId);;
  modify (store_maze newId
            (mkMaze newId encryptedGrid encryptedStartX encryptedStartY
                    encryptedEndX encryptedEndY now));;
  modify (log_event (MazeGenerated newId now)).

Definition submitEncryptedSolution (mazeId : Z)
    (encryptedPathX encryptedPathY : list euint32) : M unit :=
  do count <- gets solutionCount;
  do newId <- checked_add count 1;
  modify (set_solutionCount newId);;
  modify (store_solution newId
            (mkSolution newId encryptedPathX encryptedPathY mazeId));;
  modify (store_verification newId (mkVerification false false));;
  modify (log_event (SolutionSubmitted newId mazeId)).

(** Lines 117-126: the indicator computed for the step from point [i-1]
    to point [i]. *)
Definition adjacent (xPrev yPrev xCur yCur : euint32) : ebool :=
  FHE.or (FHE.eq (FHE.sub xCur xPrev) (FHE.asEuint32 1))
         (FHE.eq (FHE.sub yCur yPrev) (FHE.asEuint32 1)).

(** The body of the loop of [verifySolution], lines 117-132. *)
Definition stepCheck (solution : EncryptedSolution) (maze : EncryptedMaze)
    (i : Z) (isValid : ebool) : M ebool :=
  do xCur <- index (encryptedPathX solution) i;
  do iPrev <- checked_sub i 1;
  do xPrev <- index (encryptedPathX solution) iPrev;
  do yCur <- index (encryptedPathY solution) i;
  do yPrev <- index (encryptedPathY solution) iPrev;
  let isValid := FHE.and isValid (adjacent xPrev yPrev xCur yCur) in
  do row <- index (encryptedGrid maze) 0;
  do cellValue <- index row 0;
  let isPath := FHE.eq cellValue (FHE.asEuint32 0) in
  ret (FHE.and isValid isPath).

(** Lines 98-133: the encrypted verdict. *)
Definition circuit (solution : EncryptedSolution) (maze : EncryptedMaze)
    : M ebool :=
  let isValid := FHE.asEbool true in
  do x0 <- index (encryptedPathX solution) 0;
  do y0 <- index (encryptedPathY solution) 0;
  let validStart := FHE.and (FHE.eq x0 (encryptedStartX maze))
                            (FHE.eq y0 (encryptedStartY maze)) in
  let isValid := FHE.and isValid validStart in
  do lastIdx <- checked_sub (Z.of_nat (length (encryptedPathX solution))) 1;
  do xLast <- index (encryptedPathX solution) lastIdx;
  do yLast <- index (encryptedPathY solution) lastIdx;
  let validEnd := FHE.and (FHE.eq xLast (encryptedEndX maze))
                          (FHE.eq yLast (encryptedEndY maze)) in
  let isValid := FHE.and isValid validEnd in
  forLoop (length (encryptedPathX solution) - 1)%nat 1
          (stepCheck solution maze) isValid.

(** [reqId] is the identifier [FHE.requestDecryption] returns; the oracle
    chooses it, so it is an input of the transition. *)
Definition verifySolution (reqId : Z) (solutionId : Z) : M unit :=
  do solution <- gets (fun s => solutionAt s solutionId);
  do maze <- gets (fun s => mazeAt s (solMazeId solution));
  do isValid <- circuit solution maze;
  modify (log_request reqId isValid);;
  modify (store_request reqId solutionId).

Definition decryptVerification (requestId : Z)
    (cleartexts proof : list byte) : M unit :=
  do solutionId <- gets (fun s => requestAt s requestId);
  require (negb (solutionId =? 0)) InvalidRequest;;
  do verification <- gets (fun s => verificationAt s solutionId);
  require (negb (isRevealed verification)) AlreadyVerified;;
  require (checkSignatures requestId cleartexts proof) InvalidProof;;
  do decoded <- abi_decode_bool cleartexts;
  modify (fun s => store_verification solutionId
            (mkVerification decoded (isRevealed (verificationAt s solutionId))) s);;
  modify (fun s => store_verification solutionId
            (mkVerification (isValid (verificationAt s solutionId)) true) s);;
  modify (log_event (VerificationComplete solutionId)).

Definition getVerificationResult (s : State) (solutionId : Z) : bool * bool :=
  let v := verificationAt s solutionId in (isValid v, isRevealed v).

(** Lines 181-196. *)
Definition checkPathAdjacency (x1 y1 x2 y2 : euint32) : ebool :=
  let xAdjacent := FHE.eq (FHE.sub x1 x2) (FHE.asEuint32 1) in
  let yAdjacent := FHE.eq (FHE.sub y1 y2) (FHE.asEuint32 1) in
  FHE.or xAdjacent yAdjacent.

(** ** Transactions *)

Inductive Call :=
| CallGenerate (now : Z) (grid : list (list euint32)) (sx sy ex ey : euint32)
| CallSubmit (mazeId : Z) (pathX pathY : list euint32)
| CallVerify (reqId solutionId : Z)
| CallDecrypt (requestId : Z) (cleartexts proof : list byte).

Definition dispatch (c : Call) : M unit :=
  match c with
  | CallGenerate now grid sx sy ex ey =>
      generateEncryptedMaze now grid sx sy ex ey
  | CallSubmit mazeId pathX pathY =>
      submitEncryptedSolution mazeId pathX pathY
  | CallVerify reqId solutionId => verifySolution reqId solutionId
  | CallDecrypt requestId cleartexts proof =>
      decryptVerification requestId cleartexts proof
  end.

(** A call either commits its final storage or reverts to the storage it
    started from. *)
Definition transact (c : Call) (s : State) : State * option Error :=
  match dispatch c s with
  | Ok _ s' => (s', None)
  | Revert e _ => (s, Some e)
  end.

Definition after (c : Call) (s : State) : State := fst (transact c s).

Definition run (cs : list Call) (s : State) : State :=
  fold_left (fun st c => after c st) cs s.

Inductive reachable : State -> Prop :=
| reach_init : reachable init
| reach_step c s : reachable s -> reachable (after c s).

End Contract.

(** ** The pure helpers of the contract *)

(** Lines 169-179.  The inner loop of [generateComplexityScore] for row [i]:
    its bound is [mazeGrid[i].length] and its body reads [mazeGrid[i][j]]. *)
Definition complexityRow (mazeGrid : list (list euint32)) (i : Z)
    (complexity : euint32) : M euint32 :=
  do row <- index mazeGrid i;
  forLoop (length row) 0
    (fun j acc =>
       do row' <- index mazeGrid i;
       do cell <- index row' j;
       ret (FHE.add acc cell))
    complexity.

Definition generateComplexityScore (mazeGrid : list (list euint32)) : M euint32 :=
  forLoop (length mazeGrid) 0 (complexityRow mazeGrid) (FHE.asEuint32 0).

(** Lines 207-211: the body of the loop of [calculatePathDifficulty]. *)
Definition difficultyStep (pathX pathY : list euint32) (i : Z)
    (difficulty : euint32) : M euint32 :=
  do xCur <- index pathX i;
  do iPrev <- checked_sub i 1;
  do xPrev <- index pathX iPrev;
  let xDiff := FHE.sub xCur xPrev in
  do yCur <- index pathY i;
  do iPrev' <- checked_sub i 1;
  do yPrev <- index pathY iPrev';
  let yDiff := FHE.sub yCur yPrev in
  ret (FHE.add difficulty (FHE.add xDiff yDiff)).

(** Lines 202-213. *)
Definition calculatePathDifficulty (pathX pathY : list euint32) : M euint32 :=
  forLoop (length pathX - 1)%nat 1 (difficultyStep pathX pathY)
          (FHE.asEuint32 0).

(** ** Auxiliary notions for the proofs *)

(** A computation that only reads: whatever it returns, the storage is the
    one it was started in. *)
Definition readOnly {A} (m : M A) : Prop := forall s, stateOf (m s) = s.

(** ** The circuit in closed form *)

(** The definitions of this part are not code of the contract: they say, as
    plain boolean functions of the stored solution and maze, when [circuit]
    returns and what it returns; [circuit_eq] below proves it. *)

(** An in-range read, as a total function. *)
Definition at_ (a : list euint32) (i : Z) : euint32 :=
  default 0 (a !! Z.to_nat i).

(** The cell the loop body reads, when the grid has one. *)
Definition cell00 (maze : EncryptedMaze) : option euint32 :=
  match encryptedGrid maze !! 0%nat with
  | Some row => row !! 0%nat
  | None => None
  end.

(** The conjunction the loop accumulates over [n] steps starting at index [i]. *)
Fixpoint stepsVerdict (solution : EncryptedSolution) (cell : euint32)
    (n : nat) (i : Z) : bool :=
  match n with
  | O => true
  | S n' =>
      adjacent (at_ (encryptedPathX solution) (i - 1))
               (at_ (encryptedPathY solution) (i - 1))
               (at_ (encryptedPathX solution) i)
               (at_ (encryptedPathY solution) i)
      && FHE.eq cell (FHE.asEuint32 0)
      && stepsVerdict solution cell n' (i + 1)
  end.

Definition verdict (solution : EncryptedSolution) (maze : EncryptedMaze) : bool :=
  let px := encryptedPathX solution in
  let py := encryptedPathY solution in
  let last := Z.of_nat (length px) - 1 in
  FHE.eq (at_ px 0) (encryptedStartX maze)
  && FHE.eq (at_ py 0) (encryptedStartY maze)
  && (FHE.eq (at_ px last) (encryptedEndX maze)
      && FHE.eq (at_ py last) (encryptedEndY maze))
  && stepsVerdict solution (default 0 (cell00 maze)) (length px - 1)%nat 1.

(** The array reads of the circuit all succeed exactly when the path is not
    empty, the Y array is at least as long as the X array and, for a path of
    two points or more, the grid has a cell [0][0]. *)
Definition circuitDefined (solution : EncryptedSolution) (maze : EncryptedMaze) : bool :=
  let px := encryptedPathX solution in
  let py := encryptedPathY solution in
  (0 <? length px)%nat && (length px <=? length py)%nat
  && ((length px <=? 1)%nat || bool_decide (is_Some (cell00 maze))).

(** ** Reachable storage *)

(** Identifiers are handed out from 1 upwards, and every key or value that
    names a maze or a solution was handed out before. *)
Record Inv (s : State) : Prop := mkInv {
  inv_mazeCount : 0 <= mazeCount s;
  inv_solutionCount : 0 <= solutionCount s;
  inv_mazes : forall id m,
    encryptedMazes s !! id = Some m -> 1 <= id <= mazeCount s;
  inv_solutions : forall id x,
    encryptedSolutions s !! id = Some x -> 1 <= id <= solutionCount s;
  inv_verifications : forall id v,
    solutionVerifications s !! id = Some v -> 1 <= id <= solutionCount s;
  inv_requests : forall rid sid,
    requestToSolutionId s !! rid = Some sid -> 1 <= sid <= solutionCount s
}.

(** The sum of a list of integers. *)
Definition sumZ (l : list Z) : Z := foldr Z.add 0 l.

(** How many events of a log satisfy a test. *)
Fixpoint countIf (p : Event -> bool) (l : list Event) : nat :=
  match l with
  | [] => O
  | e :: l' => ((if p e then 1 else 0) + countIf p l')%nat
  end.

Definition isMazeGenerated (e : Event) : bool :=
  match e with MazeGenerated _ _ => true | _ => false end.
Definition isSolutionSubmitted (e : Event) : bool :=
  match e with SolutionSubmitted _ _ => true | _ => false end.
Definition isVerificationComplete (sid : Z) (e : Event) : bool :=
  match e with VerificationComplete sid' => sid' =? sid | _ => false end.

(** Every identifier handed out names a stored entry carrying that
    identifier, every solution has its verification record, and a record is
    never valid without being revealed. *)
Record Registered (s : State) : Prop := mkRegistered {
  reg_mazes : forall id, 1 <= id <= mazeCount s ->
    exists m, encryptedMazes s !! id = Some m /\ mazeId m = id;
  reg_solutions : forall id, 1 <= id <= solutionCount s ->
    exists x, encryptedSolutions s !! id = Some x /\ solutionId x = id;
  reg_verifications : forall id, 1 <= id <= solutionCount s ->
    exists v, solutionVerifications s !! id = Some v;
  reg_valid_revealed : forall id v,
    solutionVerifications s !! id = Some v ->
    isValid v = true -> isRevealed v = true
}.

(** The event log counts what the storage holds. *)
Record Logged (s : State) : Prop := mkLogged {
  log_mazes : Z.of_nat (countIf isMazeGenerated (events s)) = mazeCount s;
  log_solutions :
    Z.of_nat (countIf isSolutionSubmitted (events s)) = solutionCount s;
  log_complete : forall sid,
    countIf (isVerificationComplete sid) (events s)
    = if isRevealed (verificationAt s sid) then 1%nat else 0%nat
}.

(** Whether a call is a [verifySolution] that is handed request id [rid]
    by the oracle: the only call that writes the entry of [rid] in
    [requestToSolutionId]. *)
Definition reissues (rid : Z) (c : Call) : bool :=
  match c with
  | CallVerify reqId _ => reqId =? rid
  | _ => false
  end.

(** What one transaction can do to the storage: nothing (a revert), or the
    writes of one of the four functions on its successful path. *)
Inductive effect (s : State) : State -> Prop :=
| eff_none : effect s s
| eff_generate now grid sx sy ex ey :
    mazeCount s + 1 < 2 ^ 256 ->
    effect s (log_event (MazeGenerated (mazeCount s + 1) now)
                (store_maze (mazeCount s + 1)
                   (mkMaze (mazeCount s + 1) grid sx sy ex ey now)
                   (set_mazeCount (mazeCount s + 1) s)))
| eff_submit mazeId pathX pathY :
    solutionCount s + 1 < 2 ^ 256 ->
    effect s (log_event (SolutionSubmitted (solutionCount s + 1) mazeId)
                (store_verification (solutionCount s + 1)
                   (mkVerification false false)
                   (store_solution (solutionCount s + 1)
                      (mkSolution (solutionCount s + 1) pathX pathY mazeId)
                      (set_solutionCount (solutionCount s + 1) s))))
| eff_verify reqId sid payload :
    encryptedPathX (solutionAt s sid) <> [] ->
    effect s (store_request reqId sid (log_request reqId payload s))
| eff_decrypt rid decoded :
    requestAt s rid <> 0 ->
    isRevealed (verificationAt s (requestAt s rid)) = false ->
    effect s (log_event (VerificationComplete (requestAt s rid))
                (store_verification (requestAt s rid)
                   (mkVerification decoded true) s)).

(** ** Scenarios *)

(** A stand-in for the oracle's signature check: one proof is the good one. *)
Definition oracleProof : list byte := [x2a].
Definition checkDemo (requestId : Z) (cleartexts proof : list byte) : bool :=
  match proof with
  | [b] => Byte.eqb b x2a
  | _ => false
  end.

(** [abi.encode(b)]. *)
Definition encodeBool (b : bool) : list byte :=
  repeat x00 31 ++ [if b then x01 else x00].

Definition openGrid3 : list (list euint32) := [[0; 0; 0]; [0; 0; 0]; [0; 0; 0]].
Definition walledGrid3 : list (list euint32) := [[0; 0; 0]; [1; 0; 0]; [0; 0; 0]].
Definition walledGrid3' : list (list euint32) := [[0; 1; 0]; [0; 0; 0]; [0; 0; 0]].
Definition specPathX : list euint32 := [0; 1; 2; 2; 2].
Definition specPathY : list euint32 := [0; 0; 0; 1; 2].

(** A 2x2 open maze from (0,0) to (1,1) and the one-step diagonal path. *)
Definition diagonalRun : list Call :=
  [CallGenerate 0 [[0; 0]; [0; 0]] 0 0 1 1; CallSubmit 1 [0; 1] [0; 1];
   CallVerify 9 1].

(** The spec's wall-crossing example: cell (1,0) is a wall and the path goes
    through it. *)
Definition wallRun (grid : list (list euint32)) : list Call :=
  [CallGenerate 0 grid 0 0 2 2; CallSubmit 1 specPathX specPathY;
   CallVerify 9 1].

(** The spec's valid example, up to the pending request, and resolved. *)
Definition pendingRun : list Call := wallRun openGrid3.
Definition revealedRun : list Call :=
  pendingRun ++ [CallDecrypt 9 (encodeBool true) oracleProof].

Definition honestCallback (s : State) : list Call :=
  match decryptionRequests s with
  | (rid, payload) :: _ => [CallDecrypt rid (encodeBool payload) oracleProof]
  | [] => []
  end.

(** * Properties *)

(** ** What each function computes *)

Lemma index_Some {A} (a : list A) (i : Z) (v : A) (s : State) :
  a !! Z.to_nat i = Some v -> index a i s = Ok v s.
Proof. intros H. unfold index. rewrite H. reflexivity. Qed.

Lemma index_None {A} (a : list A) (i : Z) (s : State) :
  a !! Z.to_nat i = None -> index a i s = Revert (Panic PANIC_INDEX) s.
Proof. intros H. unfold index. rewrite H. reflexivity. Qed.

Lemma generateEncryptedMaze_eq now grid sx sy ex ey s :
  generateEncryptedMaze now grid sx sy ex ey s =
  if mazeCount s + 1 <? 2 ^ 256 then
    Ok tt (log_event (MazeGenerated (mazeCount s + 1) now)
            (store_maze (mazeCount s + 1)
               (mkMaze (mazeCount s + 1) grid sx sy ex ey now)
               (set_mazeCount (mazeCount s + 1) s)))
  else Revert (Panic PANIC_OVERFLOW) s.
Proof.
  unfold generateEncryptedMaze, bind, gets, checked_add.
  destruct (mazeCount s + 1 <? 2 ^ 256); reflexivity.
Qed.

Lemma submitEncryptedSolution_eq mazeId pathX pathY s :
  submitEncryptedSolution mazeId pathX pathY s =
  if solutionCount s + 1 <? 2 ^ 256 then
    Ok tt (log_event (SolutionSubmitted (solutionCount s + 1) mazeId)
            (store_verification (solutionCount s + 1) (mkVerification false false)
               (store_solution (solutionCount s + 1)
                  (mkSolution (solutionCount s + 1) pathX pathY mazeId)
                  (set_solutionCount (solutionCount s + 1) s))))
  else Revert (Panic PANIC_OVERFLOW) s.
Proof.
  unfold submitEncryptedSolution, bind, gets, checked_add.
  destruct (solutionCount s + 1 <? 2 ^ 256); reflexivity.
Qed.

Lemma readOnly_ret {A} (a : A) : readOnly (ret a).
Proof. intros s. reflexivity. Qed.

Lemma readOnly_revert {A} (e : Error) : readOnly (@revert A e).
Proof. intros s. reflexivity. Qed.

Lemma readOnly_bind {A B} (m : M A) (k : A -> M B) :
  readOnly m -> (forall a, readOnly (k a)) -> readOnly (bind m k).
Proof.
  intros Hm Hk s. unfold bind. specialize (Hm s).
  destruct (m s) as [a s1|e s1]; simpl in Hm; subst s1.
  - apply Hk.
  - reflexivity.
Qed.

Lemma readOnly_index {A} (a : list A) (i : Z) : readOnly (index a i).
Proof. intros s. unfold index. destruct (a !! Z.to_nat i); reflexivity. Qed.

Lemma readOnly_checked_sub a b : readOnly (checked_sub a b).
Proof. intros s. unfold checked_sub. destruct (b <=? a); reflexivity. Qed.

Lemma readOnly_forLoop {A} n (body : Z -> A -> M A) :
  (forall i acc, readOnly (body i acc)) ->
  forall i acc, readOnly (forLoop n i body acc).
Proof.
  intros Hb. induction n as [|n IH]; intros i acc; simpl.
  - apply readOnly_ret.
  - apply readOnly_bind; [apply Hb | intros a; apply IH].
Qed.

Create HintDb readonly.
#[local] Hint Resolve readOnly_ret readOnly_revert readOnly_index
  readOnly_checked_sub : readonly.

Lemma readOnly_stepCheck solution maze i acc :
  readOnly (stepCheck solution maze i acc).
Proof.
  unfold stepCheck.
  repeat (apply readOnly_bind; [auto with readonly | intros ?]).
  apply readOnly_ret.
Qed.

Lemma readOnly_circuit solution maze : readOnly (circuit solution maze).
Proof.
  unfold circuit.
  repeat (apply readOnly_bind; [auto with readonly | intros ?]).
  apply readOnly_forLoop. apply readOnly_stepCheck.
Qed.

Lemma verifySolution_eq reqId sid s :
  verifySolution reqId sid s =
  match circuit (solutionAt s sid) (mazeAt s (solMazeId (solutionAt s sid))) s with
  | Ok verdict _ => Ok tt (store_request reqId sid (log_request reqId verdict s))
  | Revert e _ => Revert e s
  end.
Proof.
  unfold verifySolution, bind, gets.
  pose proof (readOnly_circuit (solutionAt s sid)
                (mazeAt s (solMazeId (solutionAt s sid))) s) as H.
  destruct (circuit _ _ s) as [b s1|e s1]; simpl in H; subst s1; reflexivity.
Qed.

Lemma index_in_range (a : list euint32) (i : Z) (s : State) :
  (Z.to_nat i < length a)%nat -> index a i s = Ok (at_ a i) s.
Proof.
  intros H. apply lookup_lt_is_Some_2 in H as [v Hv].
  unfold at_. rewrite Hv. simpl. now apply index_Some.
Qed.

Lemma index_out_of_range {A} (a : list A) (i : Z) (s : State) :
  (length a <= Z.to_nat i)%nat -> index a i s = Revert (Panic PANIC_INDEX) s.
Proof. intros H. apply index_None. now apply lookup_ge_None_2. Qed.

Lemma checked_sub_1 (i : Z) (s : State) :
  1 <= i -> checked_sub i 1 s = Ok (i - 1) s.
Proof.
  intros H. unfold checked_sub.
  destruct (1 <=? i) eqn:E; [reflexivity | apply Z.leb_gt in E; lia].
Qed.

Section Loop.
Variables (solution : EncryptedSolution) (maze : EncryptedMaze).
Let px := encryptedPathX solution.
Let py := encryptedPathY solution.

Lemma stepCheck_reads (i : Z) (acc : bool) (s : State) :
  1 <= i ->
  (Z.to_nat i < length px)%nat -> (Z.to_nat i < length py)%nat ->
  stepCheck solution maze i acc s =
  match cell00 maze with
  | Some cell =>
      Ok (acc && adjacent (at_ px (i - 1)) (at_ py (i - 1)) (at_ px i) (at_ py i)
              && FHE.eq cell (FHE.asEuint32 0)) s
  | None => Revert (Panic PANIC_INDEX) s
  end.
Proof.
  intros Hi Hx Hy. unfold stepCheck, bind. fold px py.
  rewrite (index_in_range px i) by assumption.
  rewrite checked_sub_1 by assumption.
  rewrite (index_in_range px (i - 1)) by lia.
  rewrite (index_in_range py i) by assumption.
  rewrite (index_in_range py (i - 1)) by lia.
  unfold cell00, index. change (Z.to_nat 0) with 0%nat.
  destruct (encryptedGrid maze !! 0%nat) as [row|]; [|reflexivity].
  change (ret row s) with (Ok row s). cbv beta iota.
  destruct (row !! 0%nat); reflexivity.
Qed.

Lemma forLoop_stepCheck (cell : euint32) :
  cell00 maze = Some cell ->
  forall (n : nat) (i : Z) (acc : bool) (s : State),
    1 <= i ->
    (Z.to_nat i + n <= length px)%nat -> (Z.to_nat i + n <= length py)%nat ->
    forLoop n i (stepCheck solution maze) acc s =
    Ok (acc && stepsVerdict solution cell n i) s.
Proof.
  intros Hcell. induction n as [|n IH]; intros i acc s Hi Hx Hy; simpl.
  - unfold ret. now rewrite andb_true_r.
  - unfold bind. rewrite stepCheck_reads by lia. rewrite Hcell.
    rewrite IH by lia. fold px py.
    f_equal. now rewrite !andb_assoc.
Qed.

Lemma forLoop_no_cell :
  cell00 maze = None ->
  forall (n : nat) (acc : bool) (s : State),
    (2 + n <= length px)%nat -> (2 + n <= length py)%nat ->
    forLoop (S n) 1 (stepCheck solution maze) acc s =
    Revert (Panic PANIC_INDEX) s.
Proof.
  intros Hcell n acc s Hx Hy. simpl. unfold bind.
  rewrite stepCheck_reads by (change (Z.to_nat 1) with 1%nat; lia).
  now rewrite Hcell.
Qed.

Lemma circuit_eq (s : State) :
  circuit solution maze s =
  if circuitDefined solution maze then Ok (verdict solution maze) s
  else Revert (Panic PANIC_INDEX) s.
Proof.
  unfold circuit, circuitDefined, verdict. fold px py.
  destruct px as [|x0 xs] eqn:Epx.
  { reflexivity. }
  destruct py as [|y0 ys] eqn:Epy.
  { reflexivity. }
  unfold bind.
  rewrite (index_in_range (x0 :: xs) 0) by (simpl; lia).
  rewrite (index_in_range (y0 :: ys) 0) by (simpl; lia).
  rewrite checked_sub_1 by (simpl length; lia).
  rewrite (index_in_range (x0 :: xs)) by (simpl length; lia).
  replace (length (x0 :: xs) - 1)%nat with (length xs) by (simpl; lia).
  change (0 <? length (x0 :: xs))%nat with true.
  unfold FHE.asEbool, FHE.and. cbn [andb].
  destruct (length (x0 :: xs) <=? length (y0 :: ys))%nat eqn:Elen.
  2:{ apply Nat.leb_gt in Elen.
      rewrite index_out_of_range by (simpl length in *; lia). reflexivity. }
  apply Nat.leb_le in Elen. cbn [andb].
  rewrite (index_in_range (y0 :: ys)) by (simpl length in *; lia).
  destruct (cell00 maze) as [cell|] eqn:Ecell.
  - rewrite bool_decide_eq_true_2 by eauto. rewrite orb_true_r.
    rewrite (forLoop_stepCheck cell Ecell); fold px py;
      rewrite ?Epx, ?Epy; simpl length in *; try lia.
    reflexivity.
  - rewrite bool_decide_eq_false_2 by (intros [? ?]; discriminate).
    rewrite orb_false_r.
    destruct xs as [|x1 xs'].
    + simpl length. cbn [forLoop stepsVerdict Nat.leb]. unfold ret.
      now rewrite andb_true_r.
    + change (length (x0 :: x1 :: xs') <=? 1)%nat with false.
      change (length (x1 :: xs')) with (S (length xs')).
      rewrite forLoop_no_cell; fold px py; rewrite ?Epx, ?Epy;
        simpl length in *; try lia; try assumption.
      reflexivity.
Qed.
End Loop.

Section Callback.
Variable checkSignatures : Z -> list byte -> list byte -> bool.

Lemma decryptVerification_eq rid ct pf s :
  decryptVerification checkSignatures rid ct pf s =
  let sid := requestAt s rid in
  if sid =? 0 then Revert InvalidRequest s
  else if isRevealed (verificationAt s sid) then Revert AlreadyVerified s
  else if checkSignatures rid ct pf then
    match decodeBool ct with
    | Some b =>
        Ok tt (log_event (VerificationComplete sid)
                 (store_verification sid (mkVerification b true) s))
    | None => Revert DecodeError s
    end
  else Revert InvalidProof s.
Proof.
  unfold decryptVerification, bind, gets, require, abi_decode_bool. cbv zeta.
  destruct (requestAt s rid =? 0); [reflexivity|]. cbn [negb ret].
  destruct (isRevealed (verificationAt s (requestAt s rid))); [reflexivity|].
  cbn [negb ret].
  destruct (checkSignatures rid ct pf); [|reflexivity]. cbn [ret].
  destruct (decodeBool ct) as [b|]; [|reflexivity].
  unfold ret, modify, log_event, store_verification, verificationAt. simpl.
  rewrite lookup_insert_eq. simpl. rewrite insert_insert_eq. reflexivity.
Qed.
End Callback.

Lemma circuitDefined_nonempty solution maze :
  circuitDefined solution maze = true -> encryptedPathX solution <> [].
Proof.
  unfold circuitDefined. intros H E. rewrite E in H. discriminate.
Qed.

Lemma solutionAt_nonempty s sid :
  encryptedPathX (solutionAt s sid) <> [] ->
  exists x, encryptedSolutions s !! sid = Some x.
Proof.
  unfold solutionAt. destruct (encryptedSolutions s !! sid) as [x|].
  - eauto.
  - simpl. congruence.
Qed.

Lemma requestAt_nonzero s rid :
  requestAt s rid <> 0 ->
  requestToSolutionId s !! rid = Some (requestAt s rid).
Proof.
  unfold requestAt. destruct (requestToSolutionId s !! rid); simpl; congruence.
Qed.

Ltac inv_insert H :=
  match type of H with
  | <[?k := _]> _ !! ?i = Some _ =>
      destruct (decide (k = i)) as [<-|Hne];
      [ rewrite lookup_insert_eq in H
      | rewrite lookup_insert_ne in H by exact Hne ]
  end.

Section Invariant.
Variable checkSignatures : Z -> list byte -> list byte -> bool.

Lemma Inv_init : Inv init.
Proof. constructor; simpl; try lia; intros ? ? H; rewrite lookup_empty in H; discriminate. Qed.

Lemma Inv_generate now grid sx sy ex ey s :
  Inv s -> Inv (after checkSignatures (CallGenerate now grid sx sy ex ey) s).
Proof.
  intros [H1 H2 H3 H4 H5 H6]. unfold after, transact, dispatch.
  rewrite generateEncryptedMaze_eq.
  destruct (mazeCount s + 1 <? 2 ^ 256); simpl; [|now constructor].
  constructor; simpl; try lia; try assumption.
  intros id m H. inv_insert H; [lia|]. apply H3 in H. lia.
Qed.

Lemma Inv_submit mazeId pathX pathY s :
  Inv s -> Inv (after checkSignatures (CallSubmit mazeId pathX pathY) s).
Proof.
  intros [H1 H2 H3 H4 H5 H6]. unfold after, transact, dispatch.
  rewrite submitEncryptedSolution_eq.
  destruct (solutionCount s + 1 <? 2 ^ 256); simpl; [|now constructor].
  constructor; simpl; try lia; try assumption.
  - intros id x H. inv_insert H; [lia|]. apply H4 in H. lia.
  - intros id v H. inv_insert H; [lia|]. apply H5 in H. lia.
  - intros rid sid H. apply H6 in H. lia.
Qed.

Lemma Inv_verify reqId sid s :
  Inv s -> Inv (after checkSignatures (CallVerify reqId sid) s).
Proof.
  intros HI. pose proof HI as [H1 H2 H3 H4 H5 H6].
  unfold after, transact, dispatch.
  rewrite verifySolution_eq, circuit_eq.
  destruct (circuitDefined _ _) eqn:Hdef; simpl; [|assumption].
  constructor; simpl; try assumption.
  intros rid sid' H. inv_insert H; [|now apply H6 in H].
  injection H as <-.
  apply circuitDefined_nonempty, solutionAt_nonempty in Hdef as [x Hx].
  now apply H4 in Hx.
Qed.

Lemma Inv_decrypt rid ct pf s :
  Inv s -> Inv (after checkSignatures (CallDecrypt rid ct pf) s).
Proof.
  intros HI. pose proof HI as [H1 H2 H3 H4 H5 H6].
  unfold after, transact, dispatch.
  rewrite decryptVerification_eq. cbv zeta.
  destruct (requestAt s rid =? 0) eqn:E0; [assumption|].
  destruct (isRevealed _); [assumption|].
  destruct (checkSignatures rid ct pf); [|assumption].
  destruct (decodeBool ct); [|assumption]. simpl.
  constructor; simpl; try assumption.
  intros id v H. inv_insert H; [|now apply H5 in H].
  apply Z.eqb_neq, requestAt_nonzero in E0. now apply H6 in E0.
Qed.

Lemma Inv_after c s : Inv s -> Inv (after checkSignatures c s).
Proof.
  destruct c; [apply Inv_generate | apply Inv_submit
              | apply Inv_verify | apply Inv_decrypt].
Qed.

Lemma reachable_Inv s : reachable checkSignatures s -> Inv s.
Proof.
  induction 1 as [|c s _ IH]; [apply Inv_init | now apply Inv_after].
Qed.

Lemma reachable_run cs s :
  reachable checkSignatures s -> reachable checkSignatures (run checkSignatures cs s).
Proof.
  revert s. induction cs as [|c cs IH]; intros s H; simpl; [assumption|].
  apply IH. now constructor.
Qed.
End Invariant.

(** ** The step indicator *)

Lemma adjacent_spec xPrev yPrev xCur yCur :
  adjacent xPrev yPrev xCur yCur = true <->
  (xCur - xPrev) mod 2 ^ 32 = 1 \/ (yCur - yPrev) mod 2 ^ 32 = 1.
Proof.
  unfold adjacent, FHE.or, FHE.eq, FHE.sub, FHE.asEuint32.
  change (1 mod 2 ^ 32) with 1.
  rewrite orb_true_iff, !Z.eqb_eq. reflexivity.
Qed.

(** A step that adds one to X is accepted whatever happens to Y. *)
Lemma adjacent_ignores_other_axis x y y' : adjacent x y (x + 1) y' = true.
Proof.
  apply adjacent_spec. left. replace (x + 1 - x) with 1 by lia. reflexivity.
Qed.

(** A step back along X (or Y) is not accepted. *)
Lemma adjacent_rejects_decrement x y : adjacent (x + 1) y x y = false.
Proof.
  apply not_true_is_false. rewrite adjacent_spec.
  replace (x - (x + 1)) with (-1) by lia. rewrite Z.sub_diag.
  intros [H|H]; discriminate H.
Qed.

Lemma checkPathAdjacency_adjacent x1 y1 x2 y2 :
  checkPathAdjacency x1 y1 x2 y2 = adjacent x2 y2 x1 y1.
Proof. reflexivity. Qed.

(** C1. The claim asks that the per-step indicator hold exactly for the four
    axis-aligned unit moves and that a diagonal step make the verdict false.
    On the code, the diagonal step from (0,0) to (1,1) has indicator true (in
    [verifySolution] and in [checkPathAdjacency]), the 2x2 open maze with
    that one-step path gets the verdict true, which an honest callback then
    records as valid, while the unit moves back along an axis are refused. *)
Theorem diagonal_step_accepted :
  adjacent 0 0 1 1 = true /\
  checkPathAdjacency 1 1 0 0 = true /\
  adjacent 1 0 0 0 = false /\
  adjacent 0 1 0 0 = false /\
  decryptionRequests (run checkDemo diagonalRun init) = [(9, true)] /\
  getVerificationResult
    (run checkDemo (diagonalRun ++ honestCallback (run checkDemo diagonalRun init)) init) 1
  = (true, true).
Proof. repeat split; vm_compute; reflexivity. Qed.

(** C2. The claim asks that the open-cell check read the cell the path
    coordinate addresses, so that a path through a wall is refused.  On the
    code, the spec's wall-crossing example (wall at (1,0), whichever index is
    the row) gets the verdict true and is recorded as valid: the loop reads
    [encryptedGrid[0][0]] at every step. *)
Theorem wall_crossing_accepted :
  decryptionRequests (run checkDemo (wallRun walledGrid3) init) = [(9, true)] /\
  decryptionRequests (run checkDemo (wallRun walledGrid3') init) = [(9, true)] /\
  getVerificationResult
    (run checkDemo (wallRun walledGrid3
                    ++ honestCallback (run checkDemo (wallRun walledGrid3) init)) init) 1
  = (true, true).
Proof. repeat split; vm_compute; reflexivity. Qed.

(** The verdict depends on the grid through cell [0][0] only. *)
Lemma verdict_reads_cell00_only solution maze grid' :
  cell00 maze = cell00 (mkMaze (mazeId maze) grid' (encryptedStartX maze)
                          (encryptedStartY maze) (encryptedEndX maze)
                          (encryptedEndY maze) (timestamp maze)) ->
  verdict solution maze =
  verdict solution (mkMaze (mazeId maze) grid' (encryptedStartX maze)
                      (encryptedStartY maze) (encryptedEndX maze)
                      (encryptedEndY maze) (timestamp maze)).
Proof. intros H. unfold verdict. rewrite <- H. reflexivity. Qed.

(** ** The verification record *)

Section Reveal.
Variable checkSignatures : Z -> list byte -> list byte -> bool.

Lemma revealed_is_stored s sid :
  isRevealed (verificationAt s sid) = true ->
  exists v, solutionVerifications s !! sid = Some v.
Proof.
  unfold verificationAt. destruct (solutionVerifications s !! sid) as [v|].
  - eauto.
  - simpl. discriminate.
Qed.

Lemma revealed_stable_step c s sid :
  Inv s -> isRevealed (verificationAt s sid) = true ->
  verificationAt (after checkSignatures c s) sid = verificationAt s sid.
Proof.
  intros HI Hrev. unfold after, transact.
  destruct c as [now grid sx sy ex ey|mazeId px py|reqId sid'|rid ct pf];
    unfold dispatch.
  - rewrite generateEncryptedMaze_eq.
    destruct (mazeCount s + 1 <? 2 ^ 256); reflexivity.
  - rewrite submitEncryptedSolution_eq.
    destruct (solutionCount s + 1 <? 2 ^ 256); [|reflexivity].
    apply revealed_is_stored in Hrev as [v Hv].
    apply (inv_verifications s HI) in Hv.
    unfold verificationAt. simpl. rewrite lookup_insert_ne by lia. reflexivity.
  - rewrite verifySolution_eq.
    destruct (circuit _ _ s); reflexivity.
  - rewrite decryptVerification_eq. cbv zeta.
    destruct (requestAt s rid =? 0); [reflexivity|].
    destruct (isRevealed (verificationAt s (requestAt s rid))) eqn:Hr;
      [reflexivity|].
    destruct (checkSignatures rid ct pf); [|reflexivity].
    destruct (decodeBool ct); [|reflexivity].
    unfold verificationAt. simpl. rewrite lookup_insert_ne; [reflexivity|].
    intros E. rewrite E in Hr. congruence.
Qed.

Lemma revealed_stable_run later s sid :
  Inv s -> isRevealed (verificationAt s sid) = true ->
  verificationAt (run checkSignatures later s) sid = verificationAt s sid.
Proof.
  revert s. induction later as [|c later IH]; intros s HI Hrev; simpl.
  - reflexivity.
  - pose proof (revealed_stable_step c s sid HI Hrev) as Hstep.
    rewrite IH.
    + exact Hstep.
    + now apply Inv_after.
    + now rewrite Hstep.
Qed.

Lemma submit_unrevealed mazeId pathX pathY s :
  snd (transact checkSignatures (CallSubmit mazeId pathX pathY) s) = None ->
  let s' := after checkSignatures (CallSubmit mazeId pathX pathY) s in
  solutionCount s' = solutionCount s + 1 /\
  getVerificationResult s' (solutionCount s') = (false, false).
Proof.
  unfold after, transact, dispatch.
  rewrite submitEncryptedSolution_eq.
  destruct (solutionCount s + 1 <? 2 ^ 256); [|discriminate].
  intros _. simpl. split; [reflexivity|].
  unfold getVerificationResult, verificationAt. simpl.
  rewrite lookup_insert_eq. reflexivity.
Qed.

Lemma decrypt_success rid ct pf s :
  snd (transact checkSignatures (CallDecrypt rid ct pf) s) = None ->
  exists b,
    requestAt s rid <> 0 /\
    isRevealed (verificationAt s (requestAt s rid)) = false /\
    checkSignatures rid ct pf = true /\
    decodeBool ct = Some b /\
    after checkSignatures (CallDecrypt rid ct pf) s =
      log_event (VerificationComplete (requestAt s rid))
        (store_verification (requestAt s rid) (mkVerification b true) s).
Proof.
  unfold after, transact, dispatch.
  rewrite decryptVerification_eq. cbv zeta.
  destruct (requestAt s rid =? 0) eqn:E0; [discriminate|].
  destruct (isRevealed (verificationAt s (requestAt s rid))) eqn:Hr;
    [discriminate|].
  destruct (checkSignatures rid ct pf); [|discriminate].
  destruct (decodeBool ct) as [b|]; [|discriminate].
  intros _. exists b. apply Z.eqb_neq in E0. auto.
Qed.

Lemma decrypt_replay rid ct pf s :
  snd (transact checkSignatures (CallDecrypt rid ct pf) s) = None ->
  let s1 := after checkSignatures (CallDecrypt rid ct pf) s in
  transact checkSignatures (CallDecrypt rid ct pf) s1 = (s1, Some AlreadyVerified).
Proof.
  intros Hok s1. destruct (decrypt_success _ _ _ _ Hok) as (b & H0 & _ & _ & _ & Hs1).
  subst s1. rewrite Hs1.
  unfold transact, dispatch. rewrite decryptVerification_eq. cbv zeta.
  change (requestAt (log_event _ (store_verification _ _ s)) rid)
    with (requestAt s rid).
  apply Z.eqb_neq in H0. rewrite H0.
  unfold verificationAt at 1. simpl. rewrite lookup_insert_eq. reflexivity.
Qed.

(** C3. For every reachable storage: a successful submission leaves the
    record of the new solution unrevealed; a record that is revealed is
    never changed again, by any sequence of calls; and a resolve that
    succeeds found the record unrevealed, reveals it with the decoded
    boolean, makes the same resolve fail with "Already verified", and its
    result survives every later sequence of calls. *)
Theorem reveal_write_once (s : State) :
  reachable checkSignatures s ->
  (forall mazeId pathX pathY,
      snd (transact checkSignatures (CallSubmit mazeId pathX pathY) s) = None ->
      let s' := after checkSignatures (CallSubmit mazeId pathX pathY) s in
      getVerificationResult s' (solutionCount s') = (false, false)) /\
  (forall sid later,
      isRevealed (verificationAt s sid) = true ->
      verificationAt (run checkSignatures later s) sid = verificationAt s sid) /\
  (forall rid ct pf,
      snd (transact checkSignatures (CallDecrypt rid ct pf) s) = None ->
      let s1 := after checkSignatures (CallDecrypt rid ct pf) s in
      let sid := requestAt s rid in
      isRevealed (verificationAt s sid) = false /\
      isRevealed (verificationAt s1 sid) = true /\
      decodeBool ct = Some (isValid (verificationAt s1 sid)) /\
      transact checkSignatures (CallDecrypt rid ct pf) s1 = (s1, Some AlreadyVerified) /\
      forall later,
        verificationAt (run checkSignatures later s1) sid = verificationAt s1 sid).
Proof.
  intros Hreach. pose proof (reachable_Inv _ _ Hreach) as HI.
  split; [|split].
  - intros mazeId pathX pathY Hok. now apply submit_unrevealed.
  - intros sid later Hrev. now apply revealed_stable_run.
  - intros rid ct pf Hok s1 sid.
    destruct (decrypt_success _ _ _ _ Hok) as (b & H0 & Hunrev & _ & Hdec & Hs1).
    assert (Hv : verificationAt s1 sid = mkVerification b true).
    { subst s1. rewrite Hs1. unfold verificationAt. simpl.
      now rewrite lookup_insert_eq. }
    repeat split.
    + exact Hunrev.
    + now rewrite Hv.
    + now rewrite Hv.
    + now apply decrypt_replay.
    + intros later. apply revealed_stable_run.
      * subst s1. now apply Inv_after.
      * now rewrite Hv.
Qed.
End Reveal.

(** ** The callback's guards *)

Section Guards.
Variable checkSignatures : Z -> list byte -> list byte -> bool.

Lemma decrypt_revert_no_write rid ct pf s e s' :
  decryptVerification checkSignatures rid ct pf s = Revert e s' -> s' = s.
Proof.
  rewrite decryptVerification_eq. cbv zeta.
  destruct (requestAt s rid =? 0); [congruence|].
  destruct (isRevealed _); [congruence|].
  destruct (checkSignatures rid ct pf); [|congruence].
  destruct (decodeBool ct); [discriminate|congruence].
Qed.

(** C4. When the request is pending and its solution unrevealed, a callback
    whose cleartexts and proof do not pass [FHE.checkSignatures] reverts
    with the invalid-proof error, at a point where nothing has been written:
    the storage at the revert is the storage of the call, so the record is
    still unrevealed and [isValid] untouched.  No revert of the callback
    happens after a write. *)
Theorem invalid_proof_no_write (s : State) (rid : Z) (ct pf : list byte) :
  requestAt s rid <> 0 ->
  isRevealed (verificationAt s (requestAt s rid)) = false ->
  checkSignatures rid ct pf = false ->
  decryptVerification checkSignatures rid ct pf s = Revert InvalidProof s /\
  transact checkSignatures (CallDecrypt rid ct pf) s = (s, Some InvalidProof) /\
  getVerificationResult (after checkSignatures (CallDecrypt rid ct pf) s)
                        (requestAt s rid)
  = (isValid (verificationAt s (requestAt s rid)), false) /\
  (forall e s', decryptVerification checkSignatures rid ct pf s = Revert e s' ->
                s' = s).
Proof.
  intros H0 Hr Hsig.
  assert (E : decryptVerification checkSignatures rid ct pf s
              = Revert InvalidProof s).
  { rewrite decryptVerification_eq. cbv zeta.
    apply Z.eqb_neq in H0. now rewrite H0, Hr, Hsig. }
  repeat split.
  - exact E.
  - unfold transact, dispatch. now rewrite E.
  - unfold after, transact, dispatch. rewrite E. simpl.
    unfold getVerificationResult. now rewrite Hr.
  - intros e s'. apply decrypt_revert_no_write.
Qed.

(** C8. On every reachable storage the callback reverts with "Invalid
    request" exactly for the request ids that have no entry in
    [requestToSolutionId]: every entry holds a solution id that was handed
    out, and those start at 1, so the zero read for a missing key is never
    a stored value. *)
Theorem unknown_request_rejected (s : State) (rid : Z) (ct pf : list byte) :
  reachable checkSignatures s ->
  (requestToSolutionId s !! rid = None <->
   snd (transact checkSignatures (CallDecrypt rid ct pf) s) = Some InvalidRequest) /\
  (requestToSolutionId s !! rid = None ->
   decryptVerification checkSignatures rid ct pf s = Revert InvalidRequest s) /\
  (forall r sid, requestToSolutionId s !! r = Some sid ->
                 sid <> 0 /\ 1 <= sid <= solutionCount s) /\
  (forall sid x, encryptedSolutions s !! sid = Some x ->
                 1 <= sid <= solutionCount s).
Proof.
  intros Hreach. pose proof (reachable_Inv _ _ Hreach) as HI.
  assert (Hnone : requestToSolutionId s !! rid = None ->
                  decryptVerification checkSignatures rid ct pf s
                  = Revert InvalidRequest s).
  { intros Hn. rewrite decryptVerification_eq. cbv zeta.
    unfold requestAt at 1. rewrite Hn. reflexivity. }
  split; [split|split; [exact Hnone|split]].
  - intros Hn. unfold transact, dispatch. now rewrite Hnone.
  - unfold transact, dispatch. rewrite decryptVerification_eq. cbv zeta.
    destruct (requestToSolutionId s !! rid) as [sid|] eqn:Hsome; [|reflexivity].
    apply (inv_requests s HI) in Hsome as Hrange.
    unfold requestAt. rewrite Hsome. simpl.
    destruct (sid =? 0) eqn:E0; [apply Z.eqb_eq in E0; lia|].
    destruct (isRevealed _); [discriminate|].
    destruct (checkSignatures rid ct pf); [|discriminate].
    destruct (decodeBool ct); discriminate.
  - intros r sid Hsome. apply (inv_requests s HI) in Hsome. lia.
  - intros sid x Hsome. now apply (inv_solutions s HI) in Hsome.
Qed.

Lemma request_kept_step (c : Call) (s : State) (rid : Z) :
  reissues rid c = false ->
  requestToSolutionId (after checkSignatures c s) !! rid
  = requestToSolutionId s !! rid.
Proof.
  intros Hc. unfold after, transact.
  destruct c as [now grid sx sy ex ey|mazeId px py|reqId sid|r ct pf];
    unfold dispatch.
  - rewrite generateEncryptedMaze_eq.
    destruct (mazeCount s + 1 <? 2 ^ 256); reflexivity.
  - rewrite submitEncryptedSolution_eq.
    destruct (solutionCount s + 1 <? 2 ^ 256); reflexivity.
  - rewrite verifySolution_eq.
    destruct (circuit _ _ s); [|reflexivity].
    simpl in Hc. apply Z.eqb_neq in Hc. simpl.
    now rewrite lookup_insert_ne.
  - rewrite decryptVerification_eq. cbv zeta.
    destruct (requestAt s r =? 0); [reflexivity|].
    destruct (isRevealed _); [reflexivity|].
    destruct (checkSignatures r ct pf); [|reflexivity].
    destruct (decodeBool ct); reflexivity.
Qed.

Lemma request_kept_run (later : list Call) (s : State) (rid : Z) :
  forallb (fun c => negb (reissues rid c)) later = true ->
  requestToSolutionId (run checkSignatures later s) !! rid
  = requestToSolutionId s !! rid.
Proof.
  revert s. induction later as [|c later IH]; intros s Hall; simpl.
  - reflexivity.
  - simpl in Hall. apply andb_true_iff in Hall as [Hc Hrest].
    rewrite IH by exact Hrest.
    apply request_kept_step. now apply negb_true_iff in Hc.
Qed.

Lemma callback_for_revealed (s : State) (r : Z) (ct pf : list byte) :
  requestAt s r <> 0 ->
  isRevealed (verificationAt s (requestAt s r)) = true ->
  snd (transact checkSignatures (CallDecrypt r ct pf) s) = Some AlreadyVerified.
Proof.
  intros H0 Hrev. unfold transact, dispatch.
  rewrite decryptVerification_eq. cbv zeta.
  apply Z.eqb_neq in H0. now rewrite H0, Hrev.
Qed.

(** C9 as amended. On reachable storage a successful callback leaves
    [requestToSolutionId] as it was, so the request id still maps to its
    solution id, and no call other than a [verifySolution] that is handed the
    same request id again changes that entry.  The replay is stopped by the
    revealed flag: after every later sequence of calls, every callback for a
    request id that maps to the resolved solution reverts with "Already
    verified"; so does every later callback for the resolved request id
    itself, as long as no [verifySolution] was handed that id again. *)
Theorem resolved_request_stays_mapped (s : State) (rid : Z) (ct pf : list byte) :
  reachable checkSignatures s ->
  snd (transact checkSignatures (CallDecrypt rid ct pf) s) = None ->
  let s1 := after checkSignatures (CallDecrypt rid ct pf) s in
  let sid := requestAt s rid in
  requestToSolutionId s1 = requestToSolutionId s /\
  requestToSolutionId s1 !! rid = Some sid /\
  (forall ct' pf',
      snd (transact checkSignatures (CallDecrypt rid ct' pf') s1)
      = Some AlreadyVerified) /\
  (forall later r ct' pf',
      requestAt (run checkSignatures later s1) r = sid ->
      snd (transact checkSignatures (CallDecrypt r ct' pf')
             (run checkSignatures later s1))
      = Some AlreadyVerified) /\
  (forall later,
      forallb (fun c => negb (reissues rid c)) later = true ->
      requestToSolutionId (run checkSignatures later s1) !! rid = Some sid /\
      forall ct' pf',
        snd (transact checkSignatures (CallDecrypt rid ct' pf')
               (run checkSignatures later s1))
        = Some AlreadyVerified).
Proof.
  intros Hreach Hok s1 sid.
  destruct (decrypt_success _ _ _ _ _ Hok) as (b & H0 & _ & _ & _ & Hs1).
  fold sid in H0, Hs1.
  assert (HI1 : Inv s1)
    by (apply Inv_after; exact (reachable_Inv _ _ Hreach)).
  assert (Hmap : requestToSolutionId s1 = requestToSolutionId s)
    by (subst s1; rewrite Hs1; reflexivity).
  assert (Hentry : requestToSolutionId s1 !! rid = Some sid)
    by (rewrite Hmap; now apply requestAt_nonzero).
  assert (Hrev : isRevealed (verificationAt s1 sid) = true).
  { subst s1. rewrite Hs1. unfold verificationAt. simpl.
    now rewrite lookup_insert_eq. }
  assert (Hlater : forall later r ct' pf',
             requestAt (run checkSignatures later s1) r = sid ->
             snd (transact checkSignatures (CallDecrypt r ct' pf')
                    (run checkSignatures later s1))
             = Some AlreadyVerified).
  { intros later r ct' pf' Hr. apply callback_for_revealed.
    - now rewrite Hr.
    - rewrite Hr, (revealed_stable_run checkSignatures later s1 sid HI1 Hrev).
      exact Hrev. }
  split; [exact Hmap|]. split; [exact Hentry|]. split; [|split].
  - intros ct' pf'. apply (Hlater [] rid). simpl.
    unfold requestAt. now rewrite Hentry.
  - exact Hlater.
  - intros later Hall.
    assert (Hkept : requestToSolutionId (run checkSignatures later s1) !! rid
                    = Some sid)
      by (rewrite request_kept_run by exact Hall; exact Hentry).
    split; [exact Hkept|].
    intros ct' pf'. apply Hlater. unfold requestAt. now rewrite Hkept.
Qed.

(** ** The registries and the engine *)

(** C5 as amended. [generateEncryptedMaze] makes no check on the grid:
    for every grid, an empty or a ragged one included, it succeeds as soon
    as the next identifier fits in 256 bits, stores the maze under that
    identifier and emits [MazeGenerated]. *)
Theorem generate_accepts_any_grid (s : State) (now : Z)
    (grid : list (list euint32)) (sx sy ex ey : euint32) :
  mazeCount s + 1 < 2 ^ 256 ->
  let c := CallGenerate now grid sx sy ex ey in
  snd (transact checkSignatures c s) = None /\
  mazeCount (after checkSignatures c s) = mazeCount s + 1 /\
  encryptedMazes (after checkSignatures c s) !! (mazeCount s + 1)
  = Some (mkMaze (mazeCount s + 1) grid sx sy ex ey now) /\
  events (after checkSignatures c s)
  = events s ++ [MazeGenerated (mazeCount s + 1) now].
Proof.
  intros Hfit c. unfold after, transact, c, dispatch.
  rewrite generateEncryptedMaze_eq.
  destruct (mazeCount s + 1 <? 2 ^ 256) eqn:E; [|apply Z.ltb_ge in E; lia].
  simpl. repeat split. apply lookup_insert_eq.
Qed.

(** C6 as amended. [submitEncryptedSolution] checks neither the maze
    identifier nor the length of the path: for every identifier and every
    pair of arrays it succeeds as soon as the next solution identifier fits
    in 256 bits, stores the solution under it with an unrevealed record and
    emits [SolutionSubmitted]. *)
Theorem submit_accepts_any_maze_and_path (s : State) (mazeId : Z)
    (pathX pathY : list euint32) :
  solutionCount s + 1 < 2 ^ 256 ->
  let c := CallSubmit mazeId pathX pathY in
  let newId := solutionCount s + 1 in
  snd (transact checkSignatures c s) = None /\
  solutionCount (after checkSignatures c s) = newId /\
  encryptedSolutions (after checkSignatures c s) !! newId
  = Some (mkSolution newId pathX pathY mazeId) /\
  solutionVerifications (after checkSignatures c s) !! newId
  = Some (mkVerification false false) /\
  events (after checkSignatures c s)
  = events s ++ [SolutionSubmitted newId mazeId].
Proof.
  intros Hfit c newId. unfold after, transact, c, dispatch.
  rewrite submitEncryptedSolution_eq.
  destruct (solutionCount s + 1 <? 2 ^ 256) eqn:E; [|apply Z.ltb_ge in E; lia].
  simpl. repeat split; apply lookup_insert_eq.
Qed.

(** C7 as amended. [verifySolution] has no guard on the revealed flag or on
    the maze: it logs the decryption request and records the pending entry
    exactly when the array reads of the circuit are in range (a non-empty X
    array, a Y array at least as long and, for two points or more, a cell
    [0][0] in the grid of the referenced maze), and reverts with the
    index-out-of-bounds panic otherwise. *)
Theorem verify_guarded_by_array_bounds_only (s : State) (reqId sid : Z) :
  transact checkSignatures (CallVerify reqId sid) s =
  let solution := solutionAt s sid in
  let maze := mazeAt s (solMazeId solution) in
  if circuitDefined solution maze then
    (store_request reqId sid (log_request reqId (verdict solution maze) s), None)
  else (s, Some (Panic PANIC_INDEX)).
Proof.
  unfold transact, dispatch. rewrite verifySolution_eq, circuit_eq. cbv zeta.
  destruct (circuitDefined _ _); reflexivity.
Qed.

(** C10. On every reachable storage, [verifySolution] called with a
    solution id that was never handed out, or with one whose stored X array
    is empty, reverts with the index-out-of-bounds panic while the storage
    is still the storage of the call: no decryption request was made and no
    entry was recorded. *)
Theorem unallocated_solution_panics (s : State) (reqId sid : Z) :
  reachable checkSignatures s ->
  ~ (1 <= sid <= solutionCount s) \/ encryptedPathX (solutionAt s sid) = [] ->
  verifySolution reqId sid s = Revert (Panic PANIC_INDEX) s /\
  transact checkSignatures (CallVerify reqId sid) s
  = (s, Some (Panic PANIC_INDEX)) /\
  decryptionRequests (after checkSignatures (CallVerify reqId sid) s)
  = decryptionRequests s /\
  requestToSolutionId (after checkSignatures (CallVerify reqId sid) s)
  = requestToSolutionId s.
Proof.
  intros Hreach Hcase. pose proof (reachable_Inv _ _ Hreach) as HI.
  assert (Hpx : encryptedPathX (solutionAt s sid) = []).
  { destruct Hcase as [Hout|Hempty]; [|exact Hempty].
    unfold solutionAt.
    destruct (encryptedSolutions s !! sid) as [x|] eqn:Hx; [|reflexivity].
    apply (inv_solutions s HI) in Hx. contradiction. }
  assert (E : verifySolution reqId sid s = Revert (Panic PANIC_INDEX) s).
  { rewrite verifySolution_eq, circuit_eq.
    unfold circuitDefined. rewrite Hpx. reflexivity. }
  unfold after, transact, dispatch. rewrite E. auto.
Qed.
End Guards.

(** ** The theorems at work on concrete runs *)

Lemma reveal_write_once_witness :
  reachable checkDemo (run checkDemo pendingRun init) /\
  snd (transact checkDemo (CallDecrypt 9 (encodeBool true) oracleProof)
         (run checkDemo pendingRun init)) = None /\
  getVerificationResult (run checkDemo pendingRun init) 1 = (false, false) /\
  getVerificationResult (run checkDemo revealedRun init) 1 = (true, true) /\
  transact checkDemo (CallDecrypt 9 (encodeBool true) oracleProof)
    (run checkDemo revealedRun init)
  = (run checkDemo revealedRun init, Some AlreadyVerified) /\
  verificationAt
    (run checkDemo [CallSubmit 1 [5] [5]; CallVerify 9 1; CallVerify 10 2]
       (run checkDemo revealedRun init)) 1
  = verificationAt (run checkDemo revealedRun init) 1.
Proof.
  assert (Hr : reachable checkDemo (run checkDemo pendingRun init))
    by apply reachable_run, reach_init.
  assert (Hok : snd (transact checkDemo (CallDecrypt 9 (encodeBool true) oracleProof)
                       (run checkDemo pendingRun init)) = None)
    by (vm_compute; reflexivity).
  destruct (reveal_write_once checkDemo _ Hr) as (_ & _ & H3).
  destruct (H3 9 (encodeBool true) oracleProof Hok) as (_ & _ & _ & Hreplay & Hlater).
  split; [exact Hr|]. split; [exact Hok|].
  split; [vm_compute; reflexivity|]. split; [vm_compute; reflexivity|].
  split; [exact Hreplay|].
  exact (Hlater [CallSubmit 1 [5] [5]; CallVerify 9 1; CallVerify 10 2]).
Defined.

Lemma invalid_proof_no_write_witness :
  requestAt (run checkDemo pendingRun init) 9 <> 0 /\
  isRevealed (verificationAt (run checkDemo pendingRun init)
                (requestAt (run checkDemo pendingRun init) 9)) = false /\
  checkDemo 9 (encodeBool false) [] = false /\
  transact checkDemo (CallDecrypt 9 (encodeBool false) [])
    (run checkDemo pendingRun init)
  = (run checkDemo pendingRun init, Some InvalidProof).
Proof.
  assert (H0 : requestAt (run checkDemo pendingRun init) 9 <> 0)
    by (vm_compute; discriminate).
  assert (Hu : isRevealed (verificationAt (run checkDemo pendingRun init)
                 (requestAt (run checkDemo pendingRun init) 9)) = false)
    by (vm_compute; reflexivity).
  assert (Hsig : checkDemo 9 (encodeBool false) [] = false) by reflexivity.
  split; [exact H0|]. split; [exact Hu|]. split; [exact Hsig|].
  exact (proj1 (proj2 (invalid_proof_no_write checkDemo _ 9 (encodeBool false) []
                         H0 Hu Hsig))).
Defined.

Lemma unknown_request_rejected_witness :
  reachable checkDemo (run checkDemo pendingRun init) /\
  requestToSolutionId (run checkDemo pendingRun init) !! 4 = None /\
  snd (transact checkDemo (CallDecrypt 4 (encodeBool true) oracleProof)
         (run checkDemo pendingRun init)) = Some InvalidRequest.
Proof.
  assert (Hr : reachable checkDemo (run checkDemo pendingRun init))
    by apply reachable_run, reach_init.
  assert (Hn : requestToSolutionId (run checkDemo pendingRun init) !! 4 = None)
    by (vm_compute; reflexivity).
  split; [exact Hr|]. split; [exact Hn|].
  exact (proj1 (proj1 (unknown_request_rejected checkDemo _ 4 (encodeBool true)
                         oracleProof Hr)) Hn).
Defined.

Lemma resolved_request_stays_mapped_witness :
  reachable checkDemo (run checkDemo pendingRun init) /\
  snd (transact checkDemo (CallDecrypt 9 (encodeBool true) oracleProof)
         (run checkDemo pendingRun init)) = None /\
  requestToSolutionId
    (after checkDemo (CallDecrypt 9 (encodeBool true) oracleProof)
       (run checkDemo pendingRun init)) !! 9
  = Some (requestAt (run checkDemo pendingRun init) 9) /\
  forallb (fun c => negb (reissues 9 c))
    [CallSubmit 1 specPathX specPathY; CallVerify 10 2; CallVerify 11 1] = true /\
  snd (transact checkDemo (CallDecrypt 9 (encodeBool false) oracleProof)
         (run checkDemo
            [CallSubmit 1 specPathX specPathY; CallVerify 10 2; CallVerify 11 1]
            (after checkDemo (CallDecrypt 9 (encodeBool true) oracleProof)
               (run checkDemo pendingRun init))))
  = Some AlreadyVerified.
Proof.
  assert (Hr : reachable checkDemo (run checkDemo pendingRun init))
    by apply reachable_run, reach_init.
  assert (Hok : snd (transact checkDemo (CallDecrypt 9 (encodeBool true) oracleProof)
                       (run checkDemo pendingRun init)) = None)
    by (vm_compute; reflexivity).
  assert (Hall : forallb (fun c => negb (reissues 9 c))
                   [CallSubmit 1 specPathX specPathY; CallVerify 10 2;
                    CallVerify 11 1] = true) by reflexivity.
  destruct (resolved_request_stays_mapped checkDemo _ 9 _ _ Hr Hok)
    as (_ & Hentry & _ & _ & Hlater).
  split; [exact Hr|]. split; [exact Hok|]. split; [exact Hentry|].
  split; [exact Hall|].
  exact (proj2 (Hlater _ Hall) (encodeBool false) oracleProof).
Defined.

Lemma generate_accepts_any_grid_witness :
  mazeCount init + 1 < 2 ^ 256 /\
  snd (transact checkDemo (CallGenerate 0 [] 0 0 0 0) init) = None /\
  encryptedMazes (after checkDemo (CallGenerate 0 [] 0 0 0 0) init) !! (mazeCount init + 1)
  = Some (mkMaze (mazeCount init + 1) [] 0 0 0 0 0).
Proof.
  assert (Hfit : mazeCount init + 1 < 2 ^ 256) by (vm_compute; reflexivity).
  split; [exact Hfit|].
  destruct (generate_accepts_any_grid checkDemo init 0 [] 0 0 0 0 Hfit)
    as (H1 & _ & H3 & _).
  split; [exact H1 | exact H3].
Defined.

Lemma submit_accepts_any_maze_and_path_witness :
  solutionCount init + 1 < 2 ^ 256 /\
  snd (transact checkDemo (CallSubmit 7 [] []) init) = None /\
  encryptedSolutions (after checkDemo (CallSubmit 7 [] []) init) !! (solutionCount init + 1)
  = Some (mkSolution (solutionCount init + 1) [] [] 7).
Proof.
  assert (Hfit : solutionCount init + 1 < 2 ^ 256) by (vm_compute; reflexivity).
  split; [exact Hfit|].
  destruct (submit_accepts_any_maze_and_path checkDemo init 7 [] [] Hfit)
    as (H1 & _ & H3 & _).
  split; [exact H1 | exact H3].
Defined.

Lemma unallocated_solution_panics_witness :
  reachable checkDemo (run checkDemo pendingRun init) /\
  ~ (1 <= 2 <= solutionCount (run checkDemo pendingRun init)) /\
  transact checkDemo (CallVerify 10 2) (run checkDemo pendingRun init)
  = (run checkDemo pendingRun init, Some (Panic PANIC_INDEX)) /\
  encryptedPathX (solutionAt (run checkDemo [CallSubmit 1 [] []] init) 1) = [] /\
  transact checkDemo (CallVerify 10 1) (run checkDemo [CallSubmit 1 [] []] init)
  = (run checkDemo [CallSubmit 1 [] []] init, Some (Panic PANIC_INDEX)).
Proof.
  assert (Hr : reachable checkDemo (run checkDemo pendingRun init))
    by apply reachable_run, reach_init.
  assert (Hr' : reachable checkDemo (run checkDemo [CallSubmit 1 [] []] init))
    by apply reachable_run, reach_init.
  assert (Hout : ~ (1 <= 2 <= solutionCount (run checkDemo pendingRun init)))
    by (vm_compute; intros [_ H]; apply H; reflexivity).
  assert (Hempty : encryptedPathX
                     (solutionAt (run checkDemo [CallSubmit 1 [] []] init) 1) = [])
    by (vm_compute; reflexivity).
  split; [exact Hr|]. split; [exact Hout|].
  split; [exact (proj1 (proj2 (unallocated_solution_panics checkDemo _ 10 2 Hr
                                 (or_introl Hout))))|].
  split; [exact Hempty|].
  exact (proj1 (proj2 (unallocated_solution_panics checkDemo _ 10 1 Hr'
                         (or_intror Hempty)))).
Defined.

(** ** Where the code departs from the stated guards *)

(** Counterexample to C5 as stated: an empty grid and a ragged grid are both registered: the call does not
    fail, the maze is stored under identifier 1 and the event is emitted. *)
Lemma generate_bad_grid_succeeds :
  snd (transact checkDemo (CallGenerate 0 [] 0 0 0 0) init) = None /\
  encryptedMazes (after checkDemo (CallGenerate 0 [] 0 0 0 0) init) !! 1
  = Some (mkMaze 1 [] 0 0 0 0 0) /\
  events (after checkDemo (CallGenerate 0 [] 0 0 0 0) init) = [MazeGenerated 1 0] /\
  snd (transact checkDemo (CallGenerate 0 [[0; 0]; [0]] 0 0 0 0) init) = None /\
  encryptedMazes (after checkDemo (CallGenerate 0 [[0; 0]; [0]] 0 0 0 0) init) !! 1
  = Some (mkMaze 1 [[0; 0]; [0]] 0 0 0 0 0) /\
  events (after checkDemo (CallGenerate 0 [[0; 0]; [0]] 0 0 0 0) init)
  = [MazeGenerated 1 0].
Proof. repeat split; vm_compute; reflexivity. Qed.

(** Counterexample to C6 as stated: on the initial storage no maze exists, yet a submission for maze 7
    with an empty path does not fail: solution 1 is allocated and stored. *)
Lemma submit_unknown_maze_empty_path_succeeds :
  encryptedMazes init !! 7 = None /\
  mazeCount init = 0 /\
  snd (transact checkDemo (CallSubmit 7 [] []) init) = None /\
  solutionCount (after checkDemo (CallSubmit 7 [] []) init) = 1 /\
  encryptedSolutions (after checkDemo (CallSubmit 7 [] []) init) !! 1
  = Some (mkSolution 1 [] [] 7).
Proof. repeat split; vm_compute; reflexivity. Qed.

(** Counterexample to C7 as stated: a revealed solution is verified again without failing, and a second
    request is issued and recorded; a solution whose maze does not exist is
    verified without failing when its path has one point, and fails with the
    index panic, not with a named error, when it has two. *)
Lemma verify_revealed_or_unknown_maze_succeeds :
  isRevealed (verificationAt (run checkDemo revealedRun init) 1) = true /\
  snd (transact checkDemo (CallVerify 10 1) (run checkDemo revealedRun init)) = None /\
  decryptionRequests (after checkDemo (CallVerify 10 1) (run checkDemo revealedRun init))
  = [(9, true); (10, true)] /\
  requestToSolutionId (after checkDemo (CallVerify 10 1) (run checkDemo revealedRun init)) !! 10
  = Some 1 /\
  encryptedMazes (run checkDemo [CallSubmit 7 [0] [0]] init) !! 7 = None /\
  snd (transact checkDemo (CallVerify 3 1) (run checkDemo [CallSubmit 7 [0] [0]] init))
  = None /\
  snd (transact checkDemo (CallVerify 3 1) (run checkDemo [CallSubmit 7 [0; 1] [0; 0]] init))
  = Some (Panic PANIC_INDEX).
Proof. repeat split; vm_compute; reflexivity. Qed.

(** Counterexample to C9 as stated: after the callback for request 9 has succeeded, request 9 still maps
    to solution 1. *)
Lemma resolved_request_not_removed :
  snd (transact checkDemo (CallDecrypt 9 (encodeBool true) oracleProof)
         (run checkDemo pendingRun init)) = None /\
  requestToSolutionId (run checkDemo pendingRun init) !! 9 = Some 1 /\
  requestToSolutionId
    (after checkDemo (CallDecrypt 9 (encodeBool true) oracleProof)
       (run checkDemo pendingRun init)) !! 9 = Some 1 /\
  requestToSolutionId
    (after checkDemo (CallDecrypt 9 (encodeBool true) oracleProof)
       (run checkDemo pendingRun init)) !! 9 <> None.
Proof. repeat split; vm_compute; (reflexivity || discriminate). Qed.

(** The entry of a resolved request id is not frozen: when a later
    [verifySolution], for another solution, is handed the same request id,
    the entry is overwritten and a callback for that id succeeds again, this
    time revealing the other solution. *)
Lemma reissued_request_resolves_again :
  requestToSolutionId
    (run checkDemo [CallSubmit 1 specPathX specPathY; CallVerify 9 2]
       (run checkDemo revealedRun init)) !! 9 = Some 2 /\
  snd (transact checkDemo (CallDecrypt 9 (encodeBool false) oracleProof)
         (run checkDemo [CallSubmit 1 specPathX specPathY; CallVerify 9 2]
            (run checkDemo revealedRun init))) = None /\
  getVerificationResult
    (run checkDemo [CallSubmit 1 specPathX specPathY; CallVerify 9 2;
                    CallDecrypt 9 (encodeBool false) oracleProof]
       (run checkDemo revealedRun init)) 1 = (true, true).
Proof. repeat split; vm_compute; reflexivity. Qed.

(** * Further properties of the contract *)

(** ** The pure helpers *)

Lemma forLoop_over_list {A B} (l : list A) (f : B -> A -> B)
    (body : Z -> B -> M B) :
  (forall j acc s x, 0 <= j -> l !! Z.to_nat j = Some x ->
                     body j acc s = Ok (f acc x) s) ->
  forall n j acc s,
    0 <= j -> (Z.to_nat j + n <= length l)%nat ->
    forLoop n j body acc s
    = Ok (fold_left f (take n (drop (Z.to_nat j) l)) acc) s.
Proof.
  intros Hbody. induction n as [|n IH]; intros j acc s Hj Hlen; simpl.
  - reflexivity.
  - destruct (lookup_lt_is_Some_2 l (Z.to_nat j)) as [x Hx]; [lia|].
    unfold bind. rewrite (Hbody j acc s x Hj Hx).
    rewrite IH by lia. rewrite (drop_S _ _ _ Hx).
    replace (Z.to_nat (j + 1)) with (S (Z.to_nat j)) by lia. reflexivity.
Qed.

Lemma sumZ_app l1 l2 : sumZ (l1 ++ l2) = sumZ l1 + sumZ l2.
Proof.
  induction l1 as [|x l1 IH]; simpl; [reflexivity|].
  unfold sumZ in *. simpl. rewrite IH. lia.
Qed.

Lemma fold_add_sum (l : list euint32) (a : Z) :
  fold_left FHE.add l (a mod 2 ^ 32) = (a + sumZ l) mod 2 ^ 32.
Proof.
  revert a. induction l as [|x l IH]; intros a; simpl.
  - now rewrite Z.add_0_r.
  - unfold FHE.add at 2. rewrite Zplus_mod_idemp_l, IH.
    f_equal. unfold sumZ. simpl. lia.
Qed.

Lemma fold_rows_sum (grid : list (list euint32)) (a : Z) :
  fold_left (fun acc row => fold_left FHE.add row acc) grid (a mod 2 ^ 32)
  = (a + sumZ (concat grid)) mod 2 ^ 32.
Proof.
  revert a. induction grid as [|row grid IH]; intros a; simpl.
  - now rewrite Z.add_0_r.
  - rewrite fold_add_sum, IH, sumZ_app. f_equal. lia.
Qed.

Lemma complexityRow_fold (mazeGrid : list (list euint32)) (i : Z)
    (acc : euint32) (s : State) (row : list euint32) :
  0 <= i -> mazeGrid !! Z.to_nat i = Some row ->
  complexityRow mazeGrid i acc s = Ok (fold_left FHE.add row acc) s.
Proof.
  intros Hi Hrow. unfold complexityRow, bind at 1.
  rewrite (index_Some _ _ _ _ Hrow).
  rewrite (forLoop_over_list row FHE.add).
  - change (Z.to_nat 0) with 0%nat. rewrite drop_0, firstn_all. reflexivity.
  - intros j a s' x Hj Hx. unfold bind.
    rewrite (index_Some _ _ _ _ Hrow), (index_Some _ _ _ _ Hx). reflexivity.
  - lia.
  - simpl. lia.
Qed.

(** X1. [generateComplexityScore] never reverts, whatever the shape of the
    grid (empty, ragged), and returns the sum of all its cells modulo 2^32. *)
Theorem generateComplexityScore_sum (mazeGrid : list (list euint32)) (s : State) :
  generateComplexityScore mazeGrid s
  = Ok (sumZ (concat mazeGrid) mod 2 ^ 32) s.
Proof.
  unfold generateComplexityScore.
  rewrite (forLoop_over_list mazeGrid
             (fun acc row => fold_left FHE.add row acc)).
  - change (Z.to_nat 0) with 0%nat. rewrite drop_0, firstn_all.
    unfold FHE.asEuint32. rewrite fold_rows_sum. reflexivity.
  - intros j acc s' row Hj Hrow. now apply complexityRow_fold.
  - lia.
  - simpl. lia.
Qed.

Lemma add_sub_mod (a b c : Z) :
  FHE.add (a mod 2 ^ 32) (FHE.add (b mod 2 ^ 32) (c mod 2 ^ 32))
  = (a + b + c) mod 2 ^ 32.
Proof.
  unfold FHE.add.
  rewrite Zplus_mod_idemp_r, Zplus_mod_idemp_l.
  rewrite Z.add_assoc, Zplus_mod_idemp_r.
  rewrite (Z.add_comm a (b mod 2 ^ 32)), <- Z.add_assoc, Zplus_mod_idemp_l.
  f_equal. lia.
Qed.

Section Difficulty.
Variables (pathX pathY : list euint32).

Lemma difficultyStep_reads (i : Z) (acc : Z) (s : State) :
  1 <= i -> (Z.to_nat i < length pathX)%nat ->
  difficultyStep pathX pathY i (acc mod 2 ^ 32) s =
  if (Z.to_nat i <? length pathY)%nat then
    Ok ((acc + (at_ pathX i - at_ pathX (i - 1))
             + (at_ pathY i - at_ pathY (i - 1))) mod 2 ^ 32) s
  else Revert (Panic PANIC_INDEX) s.
Proof.
  intros Hi Hx. unfold difficultyStep, bind.
  rewrite (index_in_range pathX i) by assumption.
  rewrite checked_sub_1 by assumption.
  rewrite (index_in_range pathX (i - 1)) by lia.
  destruct (Z.to_nat i <? length pathY)%nat eqn:Hy.
  - apply Nat.ltb_lt in Hy.
    rewrite (index_in_range pathY i) by assumption.
    rewrite checked_sub_1 by assumption.
    rewrite (index_in_range pathY (i - 1)) by lia.
    unfold ret, FHE.sub. now rewrite add_sub_mod.
  - apply Nat.ltb_ge in Hy. now rewrite index_out_of_range.
Qed.

Lemma difficulty_loop_telescopes :
  forall (n : nat) (i : Z) (acc : Z) (s : State),
    1 <= i ->
    (Z.to_nat i + n <= length pathX)%nat ->
    (Z.to_nat i + n <= length pathY)%nat ->
    forLoop n i (difficultyStep pathX pathY) (acc mod 2 ^ 32) s =
    Ok ((acc + (at_ pathX (i + Z.of_nat n - 1) - at_ pathX (i - 1))
             + (at_ pathY (i + Z.of_nat n - 1) - at_ pathY (i - 1)))
        mod 2 ^ 32) s.
Proof.
  induction n as [|n IH]; intros i acc s Hi Hx Hy.
  - simpl forLoop. unfold ret. replace (i + Z.of_nat 0 - 1) with (i - 1) by lia.
    f_equal. f_equal. lia.
  - simpl forLoop. unfold bind. rewrite difficultyStep_reads by lia.
    destruct (Z.to_nat i <? length pathY)%nat eqn:E;
      [|apply Nat.ltb_ge in E; lia].
    rewrite IH by lia.
    replace (i + 1 + Z.of_nat n - 1) with (i + Z.of_nat (S n) - 1) by lia.
    replace (i + 1 - 1) with i by lia.
    f_equal. f_equal. lia.
Qed.

Lemma difficulty_loop_fails :
  forall (n : nat) (i : Z) (acc : Z) (s : State),
    1 <= i ->
    (Z.to_nat i + S n <= length pathX)%nat ->
    (length pathY < Z.to_nat i + S n)%nat ->
    forLoop (S n) i (difficultyStep pathX pathY) (acc mod 2 ^ 32) s =
    Revert (Panic PANIC_INDEX) s.
Proof.
  induction n as [|n IH]; intros i acc s Hi Hx Hy.
  - simpl forLoop. unfold bind. rewrite difficultyStep_reads by lia.
    destruct (Z.to_nat i <? length pathY)%nat eqn:E;
      [apply Nat.ltb_lt in E; lia | reflexivity].
  - change (forLoop (S (S n)) i (difficultyStep pathX pathY) (acc mod 2 ^ 32) s)
      with (bind (difficultyStep pathX pathY i (acc mod 2 ^ 32))
              (fun acc' => forLoop (S n) (i + 1) (difficultyStep pathX pathY) acc') s).
    unfold bind. rewrite difficultyStep_reads by lia.
    destruct (Z.to_nat i <? length pathY)%nat; [|reflexivity].
    apply IH; lia.
Qed.

(** X2. [calculatePathDifficulty] telescopes: for a path of two points or
    more whose Y array is at least as long as the X array it returns the net
    displacement from the first to the last point, modulo 2^32, whatever the
    points in between; for a path of at most one point it returns 0 without
    reading the Y array; and it reverts with the index panic when the Y
    array is shorter than an X array of two points or more. *)
Theorem calculatePathDifficulty_telescopes (s : State) :
  calculatePathDifficulty pathX pathY s =
  let last := Z.of_nat (length pathX) - 1 in
  if (length pathX <=? 1)%nat then Ok 0 s
  else if (length pathX <=? length pathY)%nat then
    Ok (((at_ pathX last - at_ pathX 0) + (at_ pathY last - at_ pathY 0))
        mod 2 ^ 32) s
  else Revert (Panic PANIC_INDEX) s.
Proof.
  unfold calculatePathDifficulty. cbv zeta.
  change (FHE.asEuint32 0) with (0 mod 2 ^ 32).
  destruct (length pathX <=? 1)%nat eqn:E1.
  - apply Nat.leb_le in E1.
    replace (length pathX - 1)%nat with 0%nat by lia. reflexivity.
  - apply Nat.leb_gt in E1.
    destruct (length pathX <=? length pathY)%nat eqn:E2.
    + apply Nat.leb_le in E2.
      rewrite difficulty_loop_telescopes
        by (change (Z.to_nat 1) with 1%nat; lia).
      replace (1 + Z.of_nat (length pathX - 1) - 1)
        with (Z.of_nat (length pathX) - 1) by lia.
      change (1 - 1) with 0. f_equal; f_equal; lia.
    + apply Nat.leb_gt in E2.
      destruct (length pathX - 1)%nat as [|n] eqn:En; [lia|].
      apply difficulty_loop_fails; change (Z.to_nat 1) with 1%nat; lia.
Qed.
End Difficulty.

(** ** The step indicator on 32-bit values *)

Lemma sub_mod_is_one (a b : Z) :
  0 <= a < 2 ^ 32 -> 0 <= b < 2 ^ 32 ->
  ((a - b) mod 2 ^ 32 = 1 <-> a = b + 1 \/ (a = 0 /\ b = 2 ^ 32 - 1)).
Proof.
  change (2 ^ 32) with 4294967296. intros Ha Hb. split.
  - intros H. destruct (Z_le_gt_dec b a) as [Hle|Hgt].
    + rewrite Z.mod_small in H by lia. lia.
    + replace (a - b) with (a - b + 4294967296 + (-1) * 4294967296) in H by lia.
      rewrite Z.mod_add in H by lia. rewrite Z.mod_small in H by lia. lia.
  - intros [->|[-> ->]].
    + replace (b + 1 - b) with 1 by lia. reflexivity.
    + reflexivity.
Qed.

(** X3. On 32-bit coordinates [checkPathAdjacency] holds exactly when the
    first point's X is the successor of the second point's X modulo 2^32 (one
    more, or 0 after 2^32-1), or the same for Y: it is one-directional, it
    wraps around, and it does not look at the other coordinate. *)
Theorem checkPathAdjacency_in_range (x1 y1 x2 y2 : euint32) :
  0 <= x1 < 2 ^ 32 -> 0 <= y1 < 2 ^ 32 ->
  0 <= x2 < 2 ^ 32 -> 0 <= y2 < 2 ^ 32 ->
  (checkPathAdjacency x1 y1 x2 y2 = true <->
   (x1 = x2 + 1 \/ (x1 = 0 /\ x2 = 2 ^ 32 - 1)) \/
   (y1 = y2 + 1 \/ (y1 = 0 /\ y2 = 2 ^ 32 - 1))).
Proof.
  intros Hx1 Hy1 Hx2 Hy2.
  rewrite checkPathAdjacency_adjacent, adjacent_spec.
  rewrite (sub_mod_is_one x1 x2 Hx1 Hx2), (sub_mod_is_one y1 y2 Hy1 Hy2).
  reflexivity.
Qed.

Lemma checkPathAdjacency_in_range_witness :
  (0 <= 0 < 2 ^ 32) /\ (0 <= 5 < 2 ^ 32) /\
  (0 <= 2 ^ 32 - 1 < 2 ^ 32) /\ (0 <= 9 < 2 ^ 32) /\
  checkPathAdjacency 0 5 (2 ^ 32 - 1) 9 = true.
Proof.
  assert (H1 : 0 <= 0 < 2 ^ 32) by lia.
  assert (H2 : 0 <= 5 < 2 ^ 32) by lia.
  assert (H3 : 0 <= 2 ^ 32 - 1 < 2 ^ 32) by lia.
  assert (H4 : 0 <= 9 < 2 ^ 32) by lia.
  split; [exact H1|]. split; [exact H2|]. split; [exact H3|]. split; [exact H4|].
  apply (proj2 (checkPathAdjacency_in_range 0 5 (2 ^ 32 - 1) 9 H1 H2 H3 H4)).
  left. right. split; reflexivity.
Defined.

(** ** What the circuit accepts *)

Lemma stepsVerdict_true (solution : EncryptedSolution) (cell : euint32) :
  forall (n : nat) (i : Z),
    stepsVerdict solution cell n i = true <->
    (forall k, i <= k < i + Z.of_nat n ->
       adjacent (at_ (encryptedPathX solution) (k - 1))
                (at_ (encryptedPathY solution) (k - 1))
                (at_ (encryptedPathX solution) k)
                (at_ (encryptedPathY solution) k) = true)
    /\ (n <> 0%nat -> cell = 0).
Proof.
  induction n as [|n IH]; intros i.
  - simpl. split; [|reflexivity]. intros _. split; [intros k Hk; lia | congruence].
  - cbn [stepsVerdict]. rewrite !andb_true_iff, IH.
    unfold FHE.eq at 1, FHE.asEuint32. change (0 mod 2 ^ 32) with 0.
    rewrite Z.eqb_eq. split.
    + intros [[Hadj Hcell] [Hrest _]]. split; [|intros _; exact Hcell].
      intros k Hk. destruct (Z.eq_dec k i) as [->|Hne]; [exact Hadj|].
      apply Hrest. lia.
    + intros [Hall Hcell]. split; [split|split].
      * apply Hall. lia.
      * now apply Hcell.
      * intros k Hk. apply Hall. lia.
      * intros _. now apply Hcell.
Qed.

(** X4. The circuit of [verifySolution] returns "valid" exactly when the
    stored path is not empty, its Y array is at least as long as its X array,
    its first point equals the maze's start and its last point the maze's
    end, every step adds one (modulo 2^32) to X or to Y, and, when the path
    has two points or more, cell [0][0] of the grid is 0.  No other cell of
    the grid and no bound of the grid is involved. *)
Theorem circuit_accepts_iff (solution : EncryptedSolution) (maze : EncryptedMaze)
    (s : State) :
  let px := encryptedPathX solution in
  let py := encryptedPathY solution in
  let last := Z.of_nat (length px) - 1 in
  circuit solution maze s = Ok true s <->
  (0 < length px)%nat /\ (length px <= length py)%nat /\
  at_ px 0 = encryptedStartX maze /\ at_ py 0 = encryptedStartY maze /\
  at_ px last = encryptedEndX maze /\ at_ py last = encryptedEndY maze /\
  (forall i, 1 <= i < Z.of_nat (length px) ->
     adjacent (at_ px (i - 1)) (at_ py (i - 1)) (at_ px i) (at_ py i) = true) /\
  ((2 <= length px)%nat -> cell00 maze = Some 0).
Proof.
  intros px py last. rewrite circuit_eq.
  unfold circuitDefined, verdict. fold px py last.
  destruct (0 <? length px)%nat eqn:E0.
  2:{ apply Nat.ltb_ge in E0. cbn [andb]. split; [discriminate|]. lia. }
  apply Nat.ltb_lt in E0.
  destruct (length px <=? length py)%nat eqn:E1.
  2:{ apply Nat.leb_gt in E1. cbn [andb]. split; [discriminate|]. lia. }
  apply Nat.leb_le in E1. cbn [andb].
  destruct (cell00 maze) as [cell|] eqn:Ecell.
  - rewrite bool_decide_eq_true_2 by eauto. rewrite orb_true_r.
    split.
    + intros H. injection H as H. rewrite !andb_true_iff in H.
      destruct H as [[[Hsx Hsy] [Hex Hey]] Hsteps].
      apply stepsVerdict_true in Hsteps as [Hall Hcell].
      unfold FHE.eq in *. rewrite Z.eqb_eq in *.
      repeat (split; [assumption|]).
      split.
      * intros i Hi. apply Hall. lia.
      * intros H2. simpl in Hcell. rewrite Hcell by lia. reflexivity.
    + intros (_ & _ & Hsx & Hsy & Hex & Hey & Hall & Hcell).
      f_equal. rewrite !andb_true_iff. unfold FHE.eq. rewrite !Z.eqb_eq.
      split; [split; [split|split]; assumption|].
      apply stepsVerdict_true. split.
      * intros k Hk. apply Hall. lia.
      * intros Hn. simpl. assert (Some cell = Some 0) as [= ->] by (apply Hcell; lia).
        reflexivity.
  - rewrite bool_decide_eq_false_2 by (intros [? ?]; discriminate).
    rewrite orb_false_r.
    destruct (length px <=? 1)%nat eqn:E2.
    + apply Nat.leb_le in E2.
      replace (length px - 1)%nat with 0%nat by lia. cbn [stepsVerdict].
      rewrite andb_true_r. split.
      * intros H. injection H as H. rewrite !andb_true_iff in H.
        destruct H as [[Hsx Hsy] [Hex Hey]].
        unfold FHE.eq in *. rewrite Z.eqb_eq in *.
        repeat (split; [assumption|]).
        split; [intros i Hi|intros H2]; lia.
      * intros (_ & _ & Hsx & Hsy & Hex & Hey & _).
        f_equal. rewrite !andb_true_iff. unfold FHE.eq. rewrite !Z.eqb_eq.
        split; [split|split]; assumption.
    + apply Nat.leb_gt in E2. split; [discriminate|].
      intros (_ & _ & _ & _ & _ & _ & _ & Hcell).
      specialize (Hcell ltac:(lia)). discriminate.
Qed.

(** X5. A path of one point is never checked against the grid: the circuit
    returns, for every maze (also one without a grid), whether that point is
    both the start and the end. *)
Theorem single_point_path_skips_grid (id mid x y : Z) (ys : list euint32)
    (maze : EncryptedMaze) (s : State) :
  circuit (mkSolution id [x] (y :: ys) mid) maze s
  = Ok (FHE.and (FHE.and (FHE.eq x (encryptedStartX maze))
                         (FHE.eq y (encryptedStartY maze)))
                (FHE.and (FHE.eq x (encryptedEndX maze))
                         (FHE.eq y (encryptedEndY maze)))) s.
Proof.
  rewrite circuit_eq. unfold circuitDefined, verdict. simpl.
  now rewrite andb_true_r.
Qed.

(** ** One transaction at a time *)

Section Effects.
Variable checkSignatures : Z -> list byte -> list byte -> bool.

Lemma after_effect (c : Call) (s : State) :
  effect s (after checkSignatures c s).
Proof.
  unfold after, transact.
  destruct c as [now grid sx sy ex ey|mazeId px py|reqId sid|rid ct pf];
    unfold dispatch.
  - rewrite generateEncryptedMaze_eq.
    destruct (mazeCount s + 1 <? 2 ^ 256) eqn:E; simpl; [|constructor].
    apply Z.ltb_lt in E. now constructor.
  - rewrite submitEncryptedSolution_eq.
    destruct (solutionCount s + 1 <? 2 ^ 256) eqn:E; simpl; [|constructor].
    apply Z.ltb_lt in E. now constructor.
  - rewrite verifySolution_eq, circuit_eq.
    destruct (circuitDefined _ _) eqn:E; simpl; [|constructor].
    constructor. now apply circuitDefined_nonempty in E.
  - rewrite decryptVerification_eq. cbv zeta.
    destruct (requestAt s rid =? 0) eqn:E0; [constructor|].
    destruct (isRevealed (verificationAt s (requestAt s rid))) eqn:Hr;
      [constructor|].
    destruct (checkSignatures rid ct pf); [|constructor].
    destruct (decodeBool ct); [|constructor]. simpl.
    apply Z.eqb_neq in E0. now constructor.
Qed.

(** X6. No function of the contract writes before its last point of
    failure: whenever a call reverts, the storage at the revert is the
    storage the call started from, also without the rollback. *)
Theorem dispatch_revert_no_write (c : Call) (s s' : State) (e : Error) :
  dispatch checkSignatures c s = Revert e s' -> s' = s.
Proof.
  destruct c as [now grid sx sy ex ey|mazeId px py|reqId sid|rid ct pf];
    unfold dispatch.
  - rewrite generateEncryptedMaze_eq.
    destruct (mazeCount s + 1 <? 2 ^ 256); [discriminate|congruence].
  - rewrite submitEncryptedSolution_eq.
    destruct (solutionCount s + 1 <? 2 ^ 256); [discriminate|congruence].
  - rewrite verifySolution_eq.
    destruct (circuit _ _ s); [discriminate|congruence].
  - apply decrypt_revert_no_write.
Qed.
End Effects.

Lemma dispatch_revert_no_write_witness :
  dispatch checkDemo (CallVerify 3 8) init = Revert (Panic PANIC_INDEX) init /\
  init = init.
Proof.
  assert (H : dispatch checkDemo (CallVerify 3 8) init
              = Revert (Panic PANIC_INDEX) init) by (vm_compute; reflexivity).
  split; [exact H|].
  exact (dispatch_revert_no_write checkDemo _ _ _ _ H).
Defined.

(** ** What the registries keep *)

Lemma countIf_snoc (p : Event -> bool) (l : list Event) (e : Event) :
  countIf p (l ++ [e]) = (countIf p l + (if p e then 1 else 0))%nat.
Proof.
  induction l as [|x l IH]; simpl; [lia|]. rewrite IH. lia.
Qed.

Lemma unallocated_unrevealed (s : State) (sid : Z) :
  Inv s -> ~ (1 <= sid <= solutionCount s) ->
  verificationAt s sid = emptyVerification.
Proof.
  intros HI Hout. unfold verificationAt.
  destruct (solutionVerifications s !! sid) as [v|] eqn:Hv; [|reflexivity].
  apply (inv_verifications s HI) in Hv. contradiction.
Qed.

Lemma Registered_init : Registered init.
Proof.
  constructor; simpl; try (intros; lia).
  intros id v H. rewrite lookup_empty in H. discriminate.
Qed.

Lemma Logged_init : Logged init.
Proof. constructor; reflexivity. Qed.

Lemma Registered_effect (s s' : State) :
  Registered s -> effect s s' -> Registered s'.
Proof.
  intros [Hm Hs Hv Hvr] Heff.
  destruct Heff as [|now grid sx sy ex ey Hfit|mazeId px py Hfit
                   |reqId sid payload Hpx|rid decoded H0 Hunrev].
  - now constructor.
  - constructor; simpl; try assumption.
    intros id Hid. destruct (decide (id = mazeCount s + 1)) as [->|Hne].
    + rewrite lookup_insert_eq. eauto.
    + rewrite lookup_insert_ne by congruence. apply Hm. lia.
  - constructor; simpl; try assumption.
    + intros id Hid. destruct (decide (id = solutionCount s + 1)) as [->|Hne].
      * rewrite lookup_insert_eq. eauto.
      * rewrite lookup_insert_ne by congruence. apply Hs. lia.
    + intros id Hid. destruct (decide (id = solutionCount s + 1)) as [->|Hne].
      * rewrite lookup_insert_eq. eauto.
      * rewrite lookup_insert_ne by congruence. apply Hv. lia.
    + intros id v H. destruct (decide (solutionCount s + 1 = id)) as [<-|Hne].
      * rewrite lookup_insert_eq in H. injection H as <-.
        simpl. intros Hx. discriminate Hx.
      * rewrite lookup_insert_ne in H by exact Hne. exact (Hvr id v H).
  - now constructor.
  - constructor; simpl; try assumption.
    + intros id Hid. destruct (decide (id = requestAt s rid)) as [->|Hne].
      * rewrite lookup_insert_eq. eauto.
      * rewrite lookup_insert_ne by congruence. now apply Hv.
    + intros id v H. destruct (decide (requestAt s rid = id)) as [<-|Hne].
      * rewrite lookup_insert_eq in H. injection H as <-. reflexivity.
      * rewrite lookup_insert_ne in H by exact Hne. exact (Hvr id v H).
Qed.

Lemma Logged_effect (s s' : State) :
  Inv s -> Logged s -> effect s s' -> Logged s'.
Proof.
  intros HI [Hm Hs Hc] Heff.
  destruct Heff as [|now grid sx sy ex ey Hfit|mazeId px py Hfit
                   |reqId sid payload Hpx|rid decoded H0 Hunrev].
  - now constructor.
  - constructor; simpl; rewrite ?countIf_snoc; simpl.
    + lia.
    + lia.
    + intros sid. rewrite countIf_snoc. simpl. rewrite Nat.add_0_r. apply Hc.
  - constructor; simpl; rewrite ?countIf_snoc; simpl.
    + lia.
    + lia.
    + intros sid. rewrite countIf_snoc. simpl. rewrite Nat.add_0_r, Hc.
      unfold verificationAt at 2. simpl.
      destruct (decide (solutionCount s + 1 = sid)) as [<-|Hne].
      * rewrite lookup_insert_eq. simpl.
        rewrite unallocated_unrevealed by (assumption || lia). reflexivity.
      * rewrite lookup_insert_ne by exact Hne. reflexivity.
  - now constructor.
  - constructor; simpl; rewrite ?countIf_snoc; simpl.
    + lia.
    + lia.
    + intros sid. rewrite countIf_snoc. simpl. rewrite Hc.
      unfold verificationAt at 2. simpl.
      destruct (decide (requestAt s rid = sid)) as [<-|Hne].
      * rewrite lookup_insert_eq, Z.eqb_refl, Hunrev. reflexivity.
      * rewrite lookup_insert_ne by exact Hne.
        apply Z.eqb_neq in Hne. rewrite Hne, Nat.add_0_r. reflexivity.
Qed.

Lemma kept_effect (s s' : State) :
  Inv s -> effect s s' ->
  (forall id m, encryptedMazes s !! id = Some m ->
                encryptedMazes s' !! id = Some m) /\
  (forall id x, encryptedSolutions s !! id = Some x ->
                encryptedSolutions s' !! id = Some x).
Proof.
  intros HI Heff.
  destruct Heff as [|now grid sx sy ex ey Hfit|mazeId px py Hfit
                   |reqId sid payload Hpx|rid decoded H0 Hunrev];
    simpl; split; try (intros id y H; exact H).
  - intros id m H. apply (inv_mazes s HI) in H as Hr.
    rewrite lookup_insert_ne by lia. exact H.
  - intros id x H. apply (inv_solutions s HI) in H as Hr.
    rewrite lookup_insert_ne by lia. exact H.
Qed.

Section Registries.
Variable checkSignatures : Z -> list byte -> list byte -> bool.

(** Induction along a run, for a property that every call keeps on storage
    satisfying the identifier invariant. *)
Lemma run_keeps (P : State -> Prop) :
  (forall c s, Inv s -> P s -> P (after checkSignatures c s)) ->
  forall cs s, Inv s -> P s -> P (run checkSignatures cs s).
Proof.
  intros Hstep. induction cs as [|c cs IH]; intros s HI HP; simpl.
  - exact HP.
  - apply IH; [now apply Inv_after | now apply Hstep].
Qed.

Lemma reachable_Registered (s : State) :
  reachable checkSignatures s -> Registered s.
Proof.
  induction 1 as [|c s _ IH]; [apply Registered_init|].
  apply (Registered_effect s); [exact IH | apply after_effect].
Qed.

Lemma reachable_Logged (s : State) :
  reachable checkSignatures s -> Logged s.
Proof.
  induction 1 as [|c s Hr IH]; [apply Logged_init|].
  apply (Logged_effect s);
    [exact (reachable_Inv _ _ Hr) | exact IH | apply after_effect].
Qed.

(** X7. A stored maze is never overwritten: on reachable storage, the maze
    found under an identifier is found there unchanged after every further
    sequence of calls. *)
Theorem stored_maze_immutable (s : State) (id : Z) (m : EncryptedMaze)
    (later : list Call) :
  reachable checkSignatures s ->
  encryptedMazes s !! id = Some m ->
  encryptedMazes (run checkSignatures later s) !! id = Some m.
Proof.
  intros Hr Hm.
  apply (run_keeps (fun st => encryptedMazes st !! id = Some m));
    [|now apply (reachable_Inv checkSignatures)|exact Hm].
  intros c st HI H.
  now apply (proj1 (kept_effect st _ HI (after_effect checkSignatures c st))).
Qed.

(** X8. A stored solution is never overwritten: on reachable storage, the
    path arrays and the maze reference found under a solution identifier are
    found there unchanged after every further sequence of calls. *)
Theorem stored_solution_immutable (s : State) (id : Z) (x : EncryptedSolution)
    (later : list Call) :
  reachable checkSignatures s ->
  encryptedSolutions s !! id = Some x ->
  encryptedSolutions (run checkSignatures later s) !! id = Some x.
Proof.
  intros Hr Hx.
  apply (run_keeps (fun st => encryptedSolutions st !! id = Some x));
    [|now apply (reachable_Inv checkSignatures)|exact Hx].
  intros c st HI H.
  now apply (proj2 (kept_effect st _ HI (after_effect checkSignatures c st))).
Qed.

(** X9. On reachable storage the identifiers in use are exactly 1 up to the
    counter, for mazes and for solutions; the entry stored under an
    identifier carries that identifier; and the solutions with a verification
    record are exactly the stored ones. *)
Theorem registry_domain (s : State) (id : Z) :
  reachable checkSignatures s ->
  (is_Some (encryptedMazes s !! id) <-> 1 <= id <= mazeCount s) /\
  (forall m, encryptedMazes s !! id = Some m -> mazeId m = id) /\
  (is_Some (encryptedSolutions s !! id) <-> 1 <= id <= solutionCount s) /\
  (forall x, encryptedSolutions s !! id = Some x -> solutionId x = id) /\
  (is_Some (solutionVerifications s !! id) <-> 1 <= id <= solutionCount s).
Proof.
  intros Hr. pose proof (reachable_Inv _ _ Hr) as HI.
  pose proof (reachable_Registered _ Hr) as [Hm Hs Hv _].
  split; [|split; [|split; [|split]]].
  - split.
    + intros [m H]. now apply (inv_mazes s HI) in H.
    + intros Hid. destruct (Hm id Hid) as (m & H & _). eauto.
  - intros m H. apply (inv_mazes s HI) in H as Hid.
    destruct (Hm id Hid) as (m' & H' & Hid'). congruence.
  - split.
    + intros [x H]. now apply (inv_solutions s HI) in H.
    + intros Hid. destruct (Hs id Hid) as (x & H & _). eauto.
  - intros x H. apply (inv_solutions s HI) in H as Hid.
    destruct (Hs id Hid) as (x' & H' & Hid'). congruence.
  - split.
    + intros [v H]. now apply (inv_verifications s HI) in H.
    + intros Hid. destruct (Hv id Hid) as (v & H). eauto.
Qed.

(** X10. On reachable storage the log holds as many [MazeGenerated] events
    as [mazeCount] and as many [SolutionSubmitted] events as
    [solutionCount]. *)
Theorem events_count_registrations (s : State) :
  reachable checkSignatures s ->
  Z.of_nat (countIf isMazeGenerated (events s)) = mazeCount s /\
  Z.of_nat (countIf isSolutionSubmitted (events s)) = solutionCount s.
Proof.
  intros Hr. destruct (reachable_Logged _ Hr) as [Hm Hs _]. now split.
Qed.

(** X11. On reachable storage a solution is revealed exactly when the log
    holds a [VerificationComplete] event for it, and the log never holds two:
    the number of such events is 1 for a revealed solution and 0 otherwise. *)
Theorem revealed_iff_logged_once (s : State) (sid : Z) :
  reachable checkSignatures s ->
  countIf (isVerificationComplete sid) (events s)
  = (if snd (getVerificationResult s sid) then 1 else 0)%nat.
Proof.
  intros Hr. destruct (reachable_Logged _ Hr) as [_ _ Hc]. apply Hc.
Qed.

(** X12. On reachable storage [getVerificationResult] never reports a valid
    solution that is not revealed, and it reports (false, false) for every
    identifier that was not handed out. *)
Theorem valid_only_when_revealed (s : State) (sid : Z) :
  reachable checkSignatures s ->
  (fst (getVerificationResult s sid) = true ->
   snd (getVerificationResult s sid) = true) /\
  (~ (1 <= sid <= solutionCount s) ->
   getVerificationResult s sid = (false, false)).
Proof.
  intros Hr. pose proof (reachable_Inv _ _ Hr) as HI.
  pose proof (reachable_Registered _ Hr) as [_ _ _ Hvr].
  unfold getVerificationResult. simpl. split.
  - unfold verificationAt.
    destruct (solutionVerifications s !! sid) as [v|] eqn:Hv; simpl.
    + exact (Hvr sid v Hv).
    + intros Hx. discriminate Hx.
  - intros Hout. now rewrite unallocated_unrevealed.
Qed.
End Registries.

(** ** Requests and callbacks *)

Section Requests.
Variable checkSignatures : Z -> list byte -> list byte -> bool.

(** X13. Two requests pending for the same solution: once the callback of
    one has succeeded, every callback for the other reverts with "Already
    verified", whatever its cleartexts and proof. *)
Theorem duplicate_request_blocked (s : State) (r1 r2 : Z)
    (ct pf ct' pf' : list byte) :
  snd (transact checkSignatures (CallDecrypt r1 ct pf) s) = None ->
  requestAt s r2 = requestAt s r1 ->
  snd (transact checkSignatures (CallDecrypt r2 ct' pf')
         (after checkSignatures (CallDecrypt r1 ct pf) s))
  = Some AlreadyVerified.
Proof.
  intros Hok Hsame.
  destruct (decrypt_success _ _ _ _ _ Hok) as (b & H0 & _ & _ & _ & Hs1).
  rewrite Hs1. unfold transact, dispatch.
  rewrite decryptVerification_eq. cbv zeta.
  change (requestAt (log_event _ (store_verification _ _ s)) r2)
    with (requestAt s r2).
  rewrite Hsame. apply Z.eqb_neq in H0. rewrite H0.
  unfold verificationAt at 1. simpl. rewrite lookup_insert_eq. reflexivity.
Qed.

(** X14. Once a solution and the maze it refers to are both stored, the
    outcome of [verifySolution] for it is fixed: after every further sequence
    of calls it reverts with the same error or issues a request with the same
    payload. *)
Theorem verify_outcome_stable (s : State) (sid reqId : Z)
    (x : EncryptedSolution) (m : EncryptedMaze) (later : list Call) :
  reachable checkSignatures s ->
  encryptedSolutions s !! sid = Some x ->
  encryptedMazes s !! solMazeId x = Some m ->
  let s' := run checkSignatures later s in
  let c := CallVerify reqId sid in
  snd (transact checkSignatures c s') = snd (transact checkSignatures c s) /\
  drop (length (decryptionRequests s'))
       (decryptionRequests (after checkSignatures c s'))
  = drop (length (decryptionRequests s))
         (decryptionRequests (after checkSignatures c s)).
Proof.
  intros Hr Hx Hm s' c.
  assert (Hx' : encryptedSolutions s' !! sid = Some x).
  { apply (run_keeps checkSignatures
             (fun st => encryptedSolutions st !! sid = Some x));
      [|now apply (reachable_Inv checkSignatures)|exact Hx].
    intros c0 st HI H.
    now apply (proj2 (kept_effect st _ HI (after_effect checkSignatures c0 st))). }
  assert (Hm' : encryptedMazes s' !! solMazeId x = Some m).
  { apply (run_keeps checkSignatures
             (fun st => encryptedMazes st !! solMazeId x = Some m));
      [|now apply (reachable_Inv checkSignatures)|exact Hm].
    intros c0 st HI H.
    now apply (proj1 (kept_effect st _ HI (after_effect checkSignatures c0 st))). }
  assert (Hform : forall st,
             encryptedSolutions st !! sid = Some x ->
             encryptedMazes st !! solMazeId x = Some m ->
             snd (transact checkSignatures c st)
             = (if circuitDefined x m then None else Some (Panic PANIC_INDEX)) /\
             drop (length (decryptionRequests st))
                  (decryptionRequests (after checkSignatures c st))
             = if circuitDefined x m then [(reqId, verdict x m)] else []).
  { intros st Hsx Hsm. unfold after, transact, c, dispatch.
    rewrite verifySolution_eq, circuit_eq.
    unfold solutionAt. rewrite Hsx. simpl. unfold mazeAt. rewrite Hsm. simpl.
    destruct (circuitDefined x m); simpl.
    - split; [reflexivity|]. now rewrite drop_app_length.
    - split; [reflexivity|]. now rewrite drop_all. }
  destruct (Hform s Hx Hm) as [E1 E2].
  destruct (Hform s' Hx' Hm') as [E1' E2'].
  split; congruence.
Qed.

(** X15. [verifySolution] emits no event and touches neither the counters,
    the mazes, the solutions nor the verification records: the only storage
    it can change is the entry of [requestToSolutionId] for the request id it
    was given. *)
Theorem verify_changes_only_requests (s : State) (reqId sid : Z) :
  let s' := after checkSignatures (CallVerify reqId sid) s in
  mazeCount s' = mazeCount s /\ solutionCount s' = solutionCount s /\
  encryptedMazes s' = encryptedMazes s /\
  encryptedSolutions s' = encryptedSolutions s /\
  solutionVerifications s' = solutionVerifications s /\
  events s' = events s /\
  (forall r, r <> reqId ->
             requestToSolutionId s' !! r = requestToSolutionId s !! r).
Proof.
  unfold after, transact, dispatch. rewrite verifySolution_eq, circuit_eq.
  destruct (circuitDefined _ _); simpl; repeat (split; [reflexivity|]).
  - intros r Hne. now rewrite lookup_insert_ne.
  - reflexivity.
Qed.

(** X16. [decryptVerification] touches the verification record of the one
    solution its request id maps to, and nothing else: counters, mazes,
    solutions, the request map and the records of all other solutions are
    unchanged, and the log grows by at most the [VerificationComplete] event
    of that solution. *)
Theorem decrypt_touches_one_record (s : State) (rid : Z) (ct pf : list byte) :
  let s' := after checkSignatures (CallDecrypt rid ct pf) s in
  mazeCount s' = mazeCount s /\ solutionCount s' = solutionCount s /\
  encryptedMazes s' = encryptedMazes s /\
  encryptedSolutions s' = encryptedSolutions s /\
  requestToSolutionId s' = requestToSolutionId s /\
  decryptionRequests s' = decryptionRequests s /\
  (forall sid, sid <> requestAt s rid ->
               verificationAt s' sid = verificationAt s sid) /\
  (events s' = events s \/
   events s' = events s ++ [VerificationComplete (requestAt s rid)]).
Proof.
  unfold after, transact, dispatch. rewrite decryptVerification_eq. cbv zeta.
  destruct (requestAt s rid =? 0); [simpl; auto 10|].
  destruct (isRevealed _); [simpl; auto 10|].
  destruct (checkSignatures rid ct pf); [|simpl; auto 10].
  destruct (decodeBool ct); [|simpl; auto 10].
  simpl. repeat (split; [reflexivity|]). split.
  - intros sid Hne. unfold verificationAt. simpl.
    now rewrite lookup_insert_ne by congruence.
  - now right.
Qed.

Lemma counters_grow_slowly (s s' : State) :
  effect s s' ->
  mazeCount s' <= mazeCount s + 1 /\ solutionCount s' <= solutionCount s + 1.
Proof. intros []; simpl; lia. Qed.

Lemma counters_bounded_by_calls (cs : list Call) (s : State) :
  mazeCount (run checkSignatures cs s) <= mazeCount s + Z.of_nat (length cs) /\
  solutionCount (run checkSignatures cs s)
  <= solutionCount s + Z.of_nat (length cs).
Proof.
  revert s. induction cs as [|c cs IH]; intros s; simpl run.
  - simpl. lia.
  - pose proof (counters_grow_slowly _ _ (after_effect checkSignatures c s)).
    specialize (IH (after checkSignatures c s)).
    simpl length. lia.
Qed.

(** X17. The counters grow by at most one per call, so after a run of fewer
    than 2^256 - 1 calls from the initial storage neither
    [generateEncryptedMaze] nor [submitEncryptedSolution] can revert,
    whatever their arguments. *)
Theorem registration_never_reverts (cs : list Call) (now mazeId : Z)
    (grid : list (list euint32)) (sx sy ex ey : euint32)
    (pathX pathY : list euint32) :
  Z.of_nat (length cs) + 1 < 2 ^ 256 ->
  let s := run checkSignatures cs init in
  snd (transact checkSignatures (CallGenerate now grid sx sy ex ey) s) = None /\
  snd (transact checkSignatures (CallSubmit mazeId pathX pathY) s) = None.
Proof.
  intros Hlen s.
  destruct (counters_bounded_by_calls cs init) as [Hm Hs]. fold s in Hm, Hs.
  simpl in Hm, Hs. unfold transact, dispatch.
  rewrite generateEncryptedMaze_eq, submitEncryptedSolution_eq.
  destruct (mazeCount s + 1 <? 2 ^ 256) eqn:E1; [|apply Z.ltb_ge in E1; lia].
  destruct (solutionCount s + 1 <? 2 ^ 256) eqn:E2; [|apply Z.ltb_ge in E2; lia].
  split; reflexivity.
Qed.
End Requests.

(** ** The further properties at work on concrete runs *)

Lemma circuit_accepts_iff_witness :
  circuit (mkSolution 1 specPathX specPathY 1) (mkMaze 1 openGrid3 0 0 2 2 0) init
  = Ok true init.
Proof.
  apply (proj2 (circuit_accepts_iff (mkSolution 1 specPathX specPathY 1)
                  (mkMaze 1 openGrid3 0 0 2 2 0) init)).
  simpl. repeat (split; [first [reflexivity | lia]|]). split.
  - intros i Hi.
    assert (Hcases : i = 1 \/ i = 2 \/ i = 3 \/ i = 4) by lia.
    destruct Hcases as [->|[->|[->| ->]]]; reflexivity.
  - intros _. reflexivity.
Defined.

Lemma stored_maze_immutable_witness :
  reachable checkDemo (run checkDemo pendingRun init) /\
  encryptedMazes (run checkDemo pendingRun init) !! 1
  = Some (mkMaze 1 openGrid3 0 0 2 2 0) /\
  encryptedMazes
    (run checkDemo [CallGenerate 5 walledGrid3 1 1 1 1; CallVerify 4 1]
       (run checkDemo pendingRun init)) !! 1
  = Some (mkMaze 1 openGrid3 0 0 2 2 0).
Proof.
  assert (Hr : reachable checkDemo (run checkDemo pendingRun init))
    by apply reachable_run, reach_init.
  assert (Hm : encryptedMazes (run checkDemo pendingRun init) !! 1
               = Some (mkMaze 1 openGrid3 0 0 2 2 0)) by (vm_compute; reflexivity).
  split; [exact Hr|]. split; [exact Hm|].
  exact (stored_maze_immutable checkDemo _ 1 _
           [CallGenerate 5 walledGrid3 1 1 1 1; CallVerify 4 1] Hr Hm).
Defined.

Lemma stored_solution_immutable_witness :
  reachable checkDemo (run checkDemo pendingRun init) /\
  encryptedSolutions (run checkDemo pendingRun init) !! 1
  = Some (mkSolution 1 specPathX specPathY 1) /\
  encryptedSolutions
    (run checkDemo [CallSubmit 1 [7] [7]; CallDecrypt 9 (encodeBool false) oracleProof]
       (run checkDemo pendingRun init)) !! 1
  = Some (mkSolution 1 specPathX specPathY 1).
Proof.
  assert (Hr : reachable checkDemo (run checkDemo pendingRun init))
    by apply reachable_run, reach_init.
  assert (Hx : encryptedSolutions (run checkDemo pendingRun init) !! 1
               = Some (mkSolution 1 specPathX specPathY 1))
    by (vm_compute; reflexivity).
  split; [exact Hr|]. split; [exact Hx|].
  exact (stored_solution_immutable checkDemo _ 1 _
           [CallSubmit 1 [7] [7]; CallDecrypt 9 (encodeBool false) oracleProof]
           Hr Hx).
Defined.

Lemma registry_domain_witness :
  reachable checkDemo (run checkDemo pendingRun init) /\
  (is_Some (encryptedMazes (run checkDemo pendingRun init) !! 2) <->
   1 <= 2 <= mazeCount (run checkDemo pendingRun init)).
Proof.
  assert (Hr : reachable checkDemo (run checkDemo pendingRun init))
    by apply reachable_run, reach_init.
  split; [exact Hr|].
  exact (proj1 (registry_domain checkDemo _ 2 Hr)).
Defined.

Lemma events_count_registrations_witness :
  reachable checkDemo (run checkDemo revealedRun init) /\
  Z.of_nat (countIf isMazeGenerated (events (run checkDemo revealedRun init)))
  = mazeCount (run checkDemo revealedRun init).
Proof.
  assert (Hr : reachable checkDemo (run checkDemo revealedRun init))
    by apply reachable_run, reach_init.
  split; [exact Hr|].
  exact (proj1 (events_count_registrations checkDemo _ Hr)).
Defined.

Lemma revealed_iff_logged_once_witness :
  reachable checkDemo (run checkDemo revealedRun init) /\
  countIf (isVerificationComplete 1) (events (run checkDemo revealedRun init))
  = (if snd (getVerificationResult (run checkDemo revealedRun init) 1)
     then 1 else 0)%nat.
Proof.
  assert (Hr : reachable checkDemo (run checkDemo revealedRun init))
    by apply reachable_run, reach_init.
  split; [exact Hr|].
  exact (revealed_iff_logged_once checkDemo _ 1 Hr).
Defined.

Lemma valid_only_when_revealed_witness :
  reachable checkDemo (run checkDemo pendingRun init) /\
  ~ (1 <= 6 <= solutionCount (run checkDemo pendingRun init)) /\
  getVerificationResult (run checkDemo pendingRun init) 6 = (false, false).
Proof.
  assert (Hr : reachable checkDemo (run checkDemo pendingRun init))
    by apply reachable_run, reach_init.
  assert (Hout : ~ (1 <= 6 <= solutionCount (run checkDemo pendingRun init)))
    by (vm_compute; intros [_ H]; apply H; reflexivity).
  split; [exact Hr|]. split; [exact Hout|].
  exact (proj2 (valid_only_when_revealed checkDemo _ 6 Hr) Hout).
Defined.

Lemma duplicate_request_blocked_witness :
  snd (transact checkDemo (CallDecrypt 9 (encodeBool true) oracleProof)
         (run checkDemo (pendingRun ++ [CallVerify 10 1]) init)) = None /\
  requestAt (run checkDemo (pendingRun ++ [CallVerify 10 1]) init) 10
  = requestAt (run checkDemo (pendingRun ++ [CallVerify 10 1]) init) 9 /\
  snd (transact checkDemo (CallDecrypt 10 (encodeBool false) oracleProof)
         (after checkDemo (CallDecrypt 9 (encodeBool true) oracleProof)
            (run checkDemo (pendingRun ++ [CallVerify 10 1]) init)))
  = Some AlreadyVerified.
Proof.
  assert (Hok : snd (transact checkDemo (CallDecrypt 9 (encodeBool true) oracleProof)
                       (run checkDemo (pendingRun ++ [CallVerify 10 1]) init)) = None)
    by (vm_compute; reflexivity).
  assert (Hsame : requestAt (run checkDemo (pendingRun ++ [CallVerify 10 1]) init) 10
                  = requestAt (run checkDemo (pendingRun ++ [CallVerify 10 1]) init) 9)
    by (vm_compute; reflexivity).
  split; [exact Hok|]. split; [exact Hsame|].
  exact (duplicate_request_blocked checkDemo _ 9 10 _ _ (encodeBool false)
           oracleProof Hok Hsame).
Defined.

Lemma verify_outcome_stable_witness :
  reachable checkDemo (run checkDemo pendingRun init) /\
  encryptedSolutions (run checkDemo pendingRun init) !! 1
  = Some (mkSolution 1 specPathX specPathY 1) /\
  encryptedMazes (run checkDemo pendingRun init) !! 1
  = Some (mkMaze 1 openGrid3 0 0 2 2 0) /\
  snd (transact checkDemo (CallVerify 11 1)
         (run checkDemo [CallGenerate 5 walledGrid3 1 1 1 1]
            (run checkDemo pendingRun init)))
  = snd (transact checkDemo (CallVerify 11 1) (run checkDemo pendingRun init)).
Proof.
  assert (Hr : reachable checkDemo (run checkDemo pendingRun init))
    by apply reachable_run, reach_init.
  assert (Hx : encryptedSolutions (run checkDemo pendingRun init) !! 1
               = Some (mkSolution 1 specPathX specPathY 1))
    by (vm_compute; reflexivity).
  assert (Hm : encryptedMazes (run checkDemo pendingRun init)
                 !! solMazeId (mkSolution 1 specPathX specPathY 1)
               = Some (mkMaze 1 openGrid3 0 0 2 2 0))
    by (vm_compute; reflexivity).
  split; [exact Hr|]. split; [exact Hx|]. split; [exact Hm|].
  exact (proj1 (verify_outcome_stable checkDemo _ 1 11 _ _
                  [CallGenerate 5 walledGrid3 1 1 1 1] Hr Hx Hm)).
Defined.

(** Without the stored maze the outcome is not fixed: a solution submitted
    for maze 1 before maze 1 exists is verified against the zero-valued maze,
    and against the real one once it has been created. *)
Lemma verify_outcome_changes_with_late_maze :
  decryptionRequests
    (run checkDemo [CallSubmit 1 [0] [0]; CallVerify 3 1;
                    CallGenerate 0 openGrid3 2 2 2 2; CallVerify 4 1] init)
  = [(3, true); (4, false)].
Proof. vm_compute. reflexivity. Qed.

Lemma registration_never_reverts_witness :
  Z.of_nat (length revealedRun) + 1 < 2 ^ 256 /\
  snd (transact checkDemo (CallGenerate 0 [] 0 0 0 0)
         (run checkDemo revealedRun init)) = None.
Proof.
  assert (Hlen : Z.of_nat (length revealedRun) + 1 < 2 ^ 256)
    by (vm_compute; reflexivity).
  split; [exact Hlen|].
  exact (proj1 (registration_never_reverts checkDemo revealedRun 0 0 [] 0 0 0 0
                  [] [] Hlen)).
Defined.
